(** * ImageAnim: compositing decoded image frames onto an LED matrix

    A shallow embedding of [BiblioPixelAnimations/matrix/ImageAnim.py]
    (class [ImageAnim]: [_getBufferFromImage], [_getBufferFromPath],
    [__init__], [preRun], [step]) and the properties of its frame
    compositor and of its playback cursor.

    Python integers are [Z]; Python lists are [list] with the index rules
    of Python written out (negative indexes count from the end, an index out
    of range raises [IndexError]); exceptions are an error monad.  The
    package is Python 2 code: [/] on integers is floor division. *)

From Stdlib Require Import ZArith Lia.
From stdpp Require Import base list strings.

Open Scope Z_scope.

(** ** Exceptions *)

Inductive exn := IndexError | AttributeError | TypeError | ValueError.

Inductive result (A : Type) :=
| Ok (a : A)
| Raise (e : exn).
Arguments Ok {A} a.
Arguments Raise {A} e.

Global Instance result_ret : MRet result := fun A a => Ok a.
Global Instance result_bind : MBind result := fun A B f m =>
  match m with
  | Ok a => f a
  | Raise e => Raise e
  end.

(** ** Python lists *)

(** The position a Python index [k] denotes in a list of [n] items. *)
Definition py_index (n : nat) (k : Z) : option nat :=
  if bool_decide (0 <= k < Z.of_nat n) then Some (Z.to_nat k)
  else if bool_decide (- Z.of_nat n <= k < 0) then Some (Z.to_nat (Z.of_nat n + k))
  else None.

(** [l[k]] *)
Definition getitem {A} (l : list A) (k : Z) : result A :=
  match py_index (length l) k with
  | Some i => match l !! i with Some a => Ok a | None => Raise IndexError end
  | None => Raise IndexError
  end.

(** [l[k] = v] *)
Definition setitem {A} (l : list A) (k : Z) (v : A) : result (list A) :=
  match py_index (length l) k with
  | Some i => Ok (<[i:=v]> l)
  | None => Raise IndexError
  end.

(** [range(a, b)] *)
Definition range (a b : Z) : list Z := seqZ a (b - a).

(** [for x in xs: body], the loop state threaded through the body. *)
Fixpoint for_each {X S} (xs : list X) (body : X -> S -> result S) (s : S) : result S :=
  match xs with
  | [] => Ok s
  | x :: xs' => s' ← body x s; for_each xs' body s'
  end.

(** ** Data *)

Definition color := (Z * Z * Z)%type.
Definition rgba := (Z * Z * Z * Z)%type.

(** A decoded PIL image: [img.size], [img.info['duration']] when the
    container carries one, and the RGBA samples in row-major order that
    [Image.new("RGBA", img.size)] followed by [paste(img)] exposes through
    [getpixel]. *)
Record Image := {
  im_size : Z * Z;
  im_info_duration : option Z;
  im_data : list rgba
}.

(** [frame.getpixel((x, y))] *)
Definition getpixel (frame : Image) (xy : Z * Z) : result rgba :=
  let '(x, y) := xy in
  let '(w, h) := im_size frame in
  if bool_decide (0 <= x < w /\ 0 <= y < h) then
    match im_data frame !! Z.to_nat (y * w + x) with
    | Some p => Ok p
    | None => Raise IndexError
    end
  else Raise IndexError.

(** The LED matrix the animation draws on: the attributes of [led] that
    [ImageAnim] reads, [gamma] standing for [led.driver[0].gamma], and the
    buffer that [setBuffer] installs. *)
Record LEDMatrix := {
  width : Z;
  height : Z;
  numLEDs : Z;
  bufByteCount : Z;
  matrix_map : list (list Z);
  gamma : list Z;
  masterBrightness : Z;
  _buffer : list Z
}.

Definition with_buffer (led : LEDMatrix) (buf : list Z) : LEDMatrix :=
  {| width := width led; height := height led; numLEDs := numLEDs led;
     bufByteCount := bufByteCount led; matrix_map := matrix_map led;
     gamma := gamma led; masterBrightness := masterBrightness led;
     _buffer := buf |}.

(** [led.all_off()] and [led.setBuffer(buf)] of the display surface. *)
Definition all_off (led : LEDMatrix) : LEDMatrix :=
  with_buffer led (replicate (Z.to_nat (bufByteCount led)) 0).
Definition setBuffer (led : LEDMatrix) (buf : list Z) : LEDMatrix :=
  with_buffer led buf.

(** [led.matrix_map[y][x]] *)
Definition cell (led : LEDMatrix) (x y : Z) : result Z :=
  row ← getitem (matrix_map led) y; getitem row x.

(** The animation object. *)
Record ImageAnim := {
  _led : LEDMatrix;
  _bright : Z;
  _bgcolor : color;
  _offset : Z * Z;
  _images : list (option Z * list Z);
  _count : Z;
  _curImage : Z;
  animComplete : bool;
  _internalDelay : option Z;
  _step : Z
}.

(** Attribute assignments on [self]. *)
Definition set_led (self : ImageAnim) (v : LEDMatrix) : ImageAnim :=
  {| _led := v; _bright := _bright self; _bgcolor := _bgcolor self;
     _offset := _offset self; _images := _images self; _count := _count self;
     _curImage := _curImage self; animComplete := animComplete self;
     _internalDelay := _internalDelay self; _step := _step self |}.
Definition set_bright (self : ImageAnim) (v : Z) : ImageAnim :=
  {| _led := _led self; _bright := v; _bgcolor := _bgcolor self;
     _offset := _offset self; _images := _images self; _count := _count self;
     _curImage := _curImage self; animComplete := animComplete self;
     _internalDelay := _internalDelay self; _step := _step self |}.
Definition set_bgcolor (self : ImageAnim) (v : color) : ImageAnim :=
  {| _led := _led self; _bright := _bright self; _bgcolor := v;
     _offset := _offset self; _images := _images self; _count := _count self;
     _curImage := _curImage self; animComplete := animComplete self;
     _internalDelay := _internalDelay self; _step := _step self |}.
Definition set_offset (self : ImageAnim) (v : Z * Z) : ImageAnim :=
  {| _led := _led self; _bright := _bright self; _bgcolor := _bgcolor self;
     _offset := v; _images := _images self; _count := _count self;
     _curImage := _curImage self; animComplete := animComplete self;
     _internalDelay := _internalDelay self; _step := _step self |}.
Definition set_images (self : ImageAnim) (v : list (option Z * list Z)) : ImageAnim :=
  {| _led := _led self; _bright := _bright self; _bgcolor := _bgcolor self;
     _offset := _offset self; _images := v; _count := _count self;
     _curImage := _curImage self; animComplete := animComplete self;
     _internalDelay := _internalDelay self; _step := _step self |}.
Definition set_count (self : ImageAnim) (v : Z) : ImageAnim :=
  {| _led := _led self; _bright := _bright self; _bgcolor := _bgcolor self;
     _offset := _offset self; _images := _images self; _count := v;
     _curImage := _curImage self; animComplete := animComplete self;
     _internalDelay := _internalDelay self; _step := _step self |}.
Definition set_curImage (self : ImageAnim) (v : Z) : ImageAnim :=
  {| _led := _led self; _bright := _bright self; _bgcolor := _bgcolor self;
     _offset := _offset self; _images := _images self; _count := _count self;
     _curImage := v; animComplete := animComplete self;
     _internalDelay := _internalDelay self; _step := _step self |}.
Definition set_animComplete (self : ImageAnim) (v : bool) : ImageAnim :=
  {| _led := _led self; _bright := _bright self; _bgcolor := _bgcolor self;
     _offset := _offset self; _images := _images self; _count := _count self;
     _curImage := _curImage self; animComplete := v;
     _internalDelay := _internalDelay self; _step := _step self |}.
Definition set_internalDelay (self : ImageAnim) (v : option Z) : ImageAnim :=
  {| _led := _led self; _bright := _bright self; _bgcolor := _bgcolor self;
     _offset := _offset self; _images := _images self; _count := _count self;
     _curImage := _curImage self; animComplete := animComplete self;
     _internalDelay := v; _step := _step self |}.
Definition set_step (self : ImageAnim) (v : Z) : ImageAnim :=
  {| _led := _led self; _bright := _bright self; _bgcolor := _bgcolor self;
     _offset := _offset self; _images := _images self; _count := _count self;
     _curImage := _curImage self; animComplete := animComplete self;
     _internalDelay := _internalDelay self; _step := v |}.

(** Modelled from the spec: the animation base class [BaseMatrixAnim] is not
    part of this repository's sources.  Its constructor keeps the layout;
    a new sequence is idle, with [completed] false.  The attributes that
    [ImageAnim.__init__] assigns later hold placeholders until then. *)
Definition BaseMatrixAnim_init (led : LEDMatrix) : ImageAnim :=
  {| _led := led; _bright := 0; _bgcolor := (0, 0, 0); _offset := (0, 0);
     _images := []; _count := 0; _curImage := 0; animComplete := false;
     _internalDelay := None; _step := 0 |}.

(** [s.size] where [s] is a Python string: [str] has no such attribute. *)
Definition str_size (s : string) : result (Z * Z) := Raise AttributeError.

(** [t[i] = v] where [t] is a tuple: tuples do not support item assignment. *)
Definition tuple_setitem (t : Z * Z) (i v : Z) : result (Z * Z) := Raise TypeError.

(** What the sorted glob of the folder branch yields: the path, a string,
    and the image [Image.open] decodes from it. *)
Record BmpFile := { bmp_path : string; bmp_image : Image }.

(** The two kinds of [imagePath]: a [.gif] file, opened as [img] (its first
    frame) and iterated by [ImageSequence.Iterator] as [img] followed by the
    later frames; or a folder, listed and sorted. *)
Inductive Source :=
| GifFile (img : Image) (later : list Image)
| BmpFolder (imageList : list BmpFile).

(** ** Scaling functions and sample inputs *)

(** Modelled from the spec: [colors.color_scale] belongs to the bibliopixel
    library, not to this repository.  The spec names the floor of
    [channel * brightness / 255] as a rounding for it. *)
Definition color_scale_floor (c : color) (level : Z) : color :=
  let '(r, g, b) := c in (r * level / 255, g * level / 255, b * level / 255).

(** The same scaling with the rounding that lines 73-75 use for alpha, a
    shift by 8 bits. *)
Definition color_scale_shift (c : color) (level : Z) : color :=
  let '(r, g, b) := c in
  (Z.shiftr (r * level) 8, Z.shiftr (g * level) 8, Z.shiftr (b * level) 8).

(** Two gamma tables of 256 bytes: the identity, and one that lifts 0 to 1. *)
Definition identity_gamma : list Z := seqZ 0 256.
Definition lifted_gamma : list Z := 1 :: seqZ 1 255.

(** A strip of [n] LEDs laid out as one row, and a 2 by 2 serpentine. *)
Definition strip (n : Z) (gm : list Z) (master : Z) : LEDMatrix :=
  {| width := n; height := 1; numLEDs := n; bufByteCount := 3 * n;
     matrix_map := [seqZ 0 n]; gamma := gm; masterBrightness := master;
     _buffer := replicate (Z.to_nat (3 * n)) 0 |}.

Definition serpentine (gm : list Z) (master : Z) : LEDMatrix :=
  {| width := 2; height := 2; numLEDs := 4; bufByteCount := 12;
     matrix_map := [[0; 1]; [3; 2]]; gamma := gm; masterBrightness := master;
     _buffer := replicate 12 0 |}.

(** Frames: one transparent sample, one opaque white sample, four opaque
    samples, and a frame without any sample. *)
Definition clear_dot : Image :=
  {| im_size := (1, 1); im_info_duration := Some 40; im_data := [(9, 9, 9, 0)] |}.
Definition white_dot : Image :=
  {| im_size := (1, 1); im_info_duration := Some 40;
     im_data := [(255, 255, 255, 255)] |}.
Definition four_dots : Image :=
  {| im_size := (2, 2); im_info_duration := None;
     im_data := [(10, 20, 30, 255); (40, 50, 60, 255);
                 (70, 80, 90, 255); (0, 255, 1, 255)] |}.
Definition no_dots : Image :=
  {| im_size := (0, 3); im_info_duration := None; im_data := [] |}.

(** A strip of one LED that the map reaches from two coordinates, and a
    frame of two samples, the second one translucent. *)
Definition doubled (gm : list Z) (master : Z) : LEDMatrix :=
  {| width := 2; height := 1; numLEDs := 1; bufByteCount := 3;
     matrix_map := [[0; 0]]; gamma := gm; masterBrightness := master;
     _buffer := replicate 3 0 |}.
Definition two_dots : Image :=
  {| im_size := (2, 1); im_info_duration := None;
     im_data := [(255, 0, 0, 255); (0, 0, 255, 128)] |}.

(** The object as [__init__] has it when it composites its first frame on
    [led], keeping the brightness [bright] and the background [bg]. *)
Definition compositor (led : LEDMatrix) (bright : Z) (bg : color) : ImageAnim :=
  set_bgcolor (set_bright (BaseMatrixAnim_init led) bright) bg.

(** ** The frame compositor *)

(** [buffer[pixel*3+0] = gamma[r]] and the same for the two other channels. *)
Definition put_pixel (gamma : list Z) (buffer : list Z) (pixel : Z) (c : color)
  : result (list Z) :=
  let '(r, g, b) := c in
  v ← getitem gamma r; buffer ← setitem buffer (pixel * 3 + 0) v;
  v ← getitem gamma g; buffer ← setitem buffer (pixel * 3 + 1) v;
  v ← getitem gamma b; setitem buffer (pixel * 3 + 2) v.

(** Three consecutive bytes of a buffer, as one physical pixel. *)
Definition pixel_at (buffer : list Z) (i : Z) : option color :=
  r ← buffer !! Z.to_nat (i * 3 + 0);
  g ← buffer !! Z.to_nat (i * 3 + 1);
  b ← buffer !! Z.to_nat (i * 3 + 2);
  Some (r, g, b).

(** [gamma[r], gamma[g], gamma[b]] *)
Definition gamma3 (gamma : list Z) (c : color) : result color :=
  let '(r, g, b) := c in
  r' ← getitem gamma r; g' ← getitem gamma g; b' ← getitem gamma b;
  Ok (r', g', b').

Section ImageAnim.

(** [colors.color_scale] of the bibliopixel library, which is not part of
    this repository: any function from a colour and a level to a colour. *)
Variable color_scale : color -> Z -> color.

(** Lines 70-77: the colour of one source sample before gamma. *)
Definition pixel_color (self : ImageAnim) (px : rgba) : color :=
  let '(r, g, b, a) := px in
  let c :=
    if bool_decide (a = 0) then _bgcolor self
    else (Z.shiftr (r * a) 8, Z.shiftr (g * a) 8, Z.shiftr (b * a) 8) in
  if bool_decide (_bright self <> 255) then color_scale c (_bright self) else c.

(** Lines 66-81: the body of the two nested loops. *)
Definition draw (self : ImageAnim) (frame : Image) (ox oy : Z) (gamma : list Z)
    (x y : Z) (buffer : list Z) : result (list Z) :=
  if bool_decide (x < 0 \/ y < 0) then Ok buffer
  else
    pixel ← cell (_led self) x y;
    px ← getpixel frame (x - ox, y - oy);
    put_pixel gamma buffer pixel (pixel_color self px).

(** Lines 42-48: the clipped extent of the image on one axis. *)
Definition extent (led_len off img_len : Z) : Z :=
  let w := led_len - off in
  if bool_decide (img_len < w) then img_len else w.

(** Lines 53-59: the blank buffer, filled with the background colour
    unless that colour is [(0, 0, 0)]. *)
Definition background (self : ImageAnim) : result (list Z) :=
  let buffer := replicate (Z.to_nat (bufByteCount (_led self))) 0 in
  let gamma := gamma (_led self) in
  if bool_decide (_bgcolor self <> (0, 0, 0)) then
    for_each (range 0 (numLEDs (_led self)))
      (fun i buffer => put_pixel gamma buffer i (_bgcolor self)) buffer
  else Ok buffer.

Definition _getBufferFromImage (self : ImageAnim) (img : Image) (offset : Z * Z)
  : result (option Z * list Z) :=
  let duration := im_info_duration img in
  let w := extent (width (_led self)) offset.1 (im_size img).1 in
  let h := extent (height (_led self)) offset.2 (im_size img).2 in
  let ox := offset.1 in
  let oy := offset.2 in
  let gamma := gamma (_led self) in
  buffer ← background self;
  let frame := img in
  buffer ← for_each (range ox (w + ox)) (fun x buffer =>
              for_each (range oy (h + oy)) (fun y buffer =>
                draw self frame ox oy gamma x y buffer) buffer) buffer;
  Ok (duration, buffer).

(** [Image.open(imagePath)] on a listed file, then the compositor. *)
Definition _getBufferFromPath (self : ImageAnim) (imagePath : BmpFile) (offset : Z * Z)
  : result (option Z * list Z) :=
  let img := bmp_image imagePath in
  _getBufferFromImage self img offset.

(** Lines 112-119: the placement of a [.gif] whose offset is [(0, 0)].
    The division is Python 2's [/] on integers, which floors. *)
Definition gif_offset (led : LEDMatrix) (img : Image) : Z * Z :=
  let w := 0 in
  let h := 0 in
  let w := if bool_decide ((im_size img).1 < width led)
           then (width led - (im_size img).1) / 2 else w in
  let h := if bool_decide ((im_size img).2 < height led)
           then (height led - (im_size img).2) / 2 else h in
  (w, h).

(** Lines 121-124: one turn of the loop over the frames of a [.gif]. *)
Definition gif_append (frame : Image) (self : ImageAnim) : result ImageAnim :=
  fr ← _getBufferFromImage self frame (_offset self);
  let self := set_images self (_images self ++ [fr]) in
  Ok (set_count self (_count self + 1)).

(** Lines 133-140: one turn of the loop over the listed files.  The loop
    variable [img] is the path, a string, when its [size] is read. *)
Definition bmp_append (img : BmpFile) (self : ImageAnim) : result ImageAnim :=
  self ←
    (if bool_decide (_offset self = (0, 0)) then
       sz ← str_size (bmp_path img);
       self ←
         (if bool_decide (sz.1 < width (_led self)) then
            sz ← str_size (bmp_path img);
            off ← tuple_setitem (_offset self) 0 ((width (_led self) - sz.1) / 2);
            Ok (set_offset self off)
          else Ok self);
       sz ← str_size (bmp_path img);
       (if bool_decide (sz.2 < height (_led self)) then
          sz ← str_size (bmp_path img);
          off ← tuple_setitem (_offset self) 1 ((height (_led self) - sz.2) / 2);
          Ok (set_offset self off)
        else Ok self)
     else Ok self);
  fr ← _getBufferFromPath self img (_offset self);
  Ok (set_images self (_images self ++ [fr])).

(** Lines 100-104: the brightness the animation keeps. *)
Definition effective_brightness (led : LEDMatrix) (brightness : Z) : Z :=
  if bool_decide (brightness = 255 /\ masterBrightness led <> 255)
  then masterBrightness led else brightness.

Definition __init__ (led : LEDMatrix) (imagePath : Source) (offset : Z * Z)
    (bgcolor : color) (brightness : Z) : result ImageAnim :=
  let self := BaseMatrixAnim_init led in
  let self := set_bright self (effective_brightness led brightness) in
  let self := set_bgcolor self (color_scale bgcolor (_bright self)) in
  let self := set_offset self offset in
  let self := set_images self [] in
  let self := set_count self 0 in
  self ←
    match imagePath with
    | GifFile img later =>
        let self :=
          if bool_decide (_offset self = (0, 0))
          then set_offset self (gif_offset (_led self) img) else self in
        for_each (img :: later) gif_append self
    | BmpFolder imageList =>
        let self := set_count self (Z.of_nat (length imageList)) in
        if bool_decide (_count self = 0) then Raise ValueError
        else for_each imageList bmp_append self
    end;
  Ok (set_curImage self 0).

Definition preRun (self : ImageAnim) : ImageAnim :=
  set_curImage self 0.

Definition step (self : ImageAnim) : result ImageAnim :=
  let self := set_led self (all_off (_led self)) in
  fr ← getitem (_images self) (_curImage self);
  let self := set_led self (setBuffer (_led self) fr.2) in
  fr ← getitem (_images self) (_curImage self);
  let self := set_internalDelay self fr.1 in
  let self := set_curImage self (_curImage self + 1) in
  let self :=
    if bool_decide (_curImage self >= _count self)
    then set_animComplete (set_curImage self 0) true else self in
  Ok (set_step self 0).

(** The calls a scheduler makes on a built animation. *)
Inductive call := Step | PreRun.

Definition run_call (c : call) (self : ImageAnim) : result ImageAnim :=
  match c with
  | Step => step self
  | PreRun => Ok (preRun self)
  end.

(** [n] calls of [step] in a row. *)
Definition steps (n : nat) (self : ImageAnim) : result ImageAnim :=
  for_each (replicate n Step) run_call self.

(** ** The folder of clips *)

(** The class [ImageAnimFolder] as far as this file builds it: the list
    [gifs], and the entries handed to [addAnim] of the queue base class in
    the order they are added, each with its [untilComplete] and
    [max_cycles].  The queue itself belongs to bibliopixel. *)
Record ImageAnimFolder := {
  gifs : list ImageAnim;
  queued : list (ImageAnim * bool * Z)
}.

(** Lines 167-170: one turn of the loop over the [.gif] files found.
    [ImageAnim(led, g)] leaves the offset, the background and the
    brightness at their defaults [(0, 0)], [colors.Off] and 255; [Off]
    stands for [colors.Off] of bibliopixel. *)
Definition folder_append (led : LEDMatrix) (Off : color) (cycles : Z)
    (g : Image * list Image) (self : ImageAnimFolder) : result ImageAnimFolder :=
  anim ← __init__ led (GifFile g.1 g.2) (0, 0) Off 255;
  Ok {| gifs := gifs self ++ [anim];
        queued := queued self ++ [(anim, true, cycles)] |}.

(** [ImageAnimFolder.__init__]: [found] is what the glob for [*.gif] in
    the folder yields, each file as its first frame and its later frames. *)
Definition ImageAnimFolder_init (led : LEDMatrix) (Off : color)
    (found : list (Image * list Image)) (cycles : Z) : result ImageAnimFolder :=
  for_each found (folder_append led Off cycles) {| gifs := []; queued := [] |}.


(** ** Vocabulary of the statements *)

(** The frames of a source, in the order the constructor composites them. *)
Definition frames (src : Source) : list Image :=
  match src with
  | GifFile img later => img :: later
  | BmpFolder imageList => bmp_image <$> imageList
  end.

(** The state a built animation is in between two calls: as many frames as
    [_count] says, and the cursor on one of them. *)
Definition playable (self : ImageAnim) : Prop :=
  _count self = Z.of_nat (length (_images self)) /\
  0 <= _curImage self < _count self.

(** The frame a call of [step] hands over: its delay and its buffer. *)
Definition shown (self : ImageAnim) : option Z * list Z :=
  (_internalDelay self, _buffer (_led self)).

(** Where the frames of a source end up, as far as the constructor gets
    to choose: the centred corner for a [.gif] given the offset [(0, 0)],
    the given offset otherwise. *)
Definition placement (led : LEDMatrix) (src : Source) (offset : Z * Z) : Z * Z :=
  match src with
  | GifFile img _ => if bool_decide (offset = (0, 0)) then gif_offset led img else offset
  | BmpFolder _ => offset
  end.

(** A channel value, a colour, an image and a layout as the decoder and
    the layout builder deliver them: channels within [0, 255]; an image
    with [w * h] samples; a layout whose map gives every coordinate of the
    [width] by [height] grid a physical index below [numLEDs], with three
    buffer bytes per LED and a gamma table of 256 entries. *)
Definition chan_ok (v : Z) : bool := bool_decide (0 <= v <= 255).

Definition color_ok (c : color) : bool :=
  let '(r, g, b) := c in chan_ok r && chan_ok g && chan_ok b.

Definition rgba_ok (px : rgba) : bool :=
  let '(r, g, b, a) := px in chan_ok r && chan_ok g && chan_ok b && chan_ok a.

Definition image_ok (img : Image) : bool :=
  bool_decide (0 <= (im_size img).1 /\ 0 <= (im_size img).2 /\
               Z.of_nat (length (im_data img)) = (im_size img).1 * (im_size img).2)
  && forallb rgba_ok (im_data img).

Definition cell_ok (led : LEDMatrix) (x y : Z) : bool :=
  match cell led x y with
  | Ok p => bool_decide (0 <= p < numLEDs led)
  | Raise _ => false
  end.

Definition layout_ok (led : LEDMatrix) : bool :=
  bool_decide (0 <= numLEDs led /\ bufByteCount led = 3 * numLEDs led /\
               length (gamma led) = 256%nat)
  && forallb (fun y => forallb (fun x => cell_ok led x y) (range 0 (width led)))
             (range 0 (height led)).

(** The buffer with the three bytes of physical pixel [p] replaced. *)
Definition paint (buffer : list Z) (p : Z) (v : color) : list Z :=
  let '(r, g, b) := v in
  <[Z.to_nat (p * 3 + 2) := b]>
    (<[Z.to_nat (p * 3 + 1) := g]> (<[Z.to_nat (p * 3 + 0) := r]> buffer)).

(** The coordinates of the layout that the two loops of the compositor
    reach without skipping: the overlap of the placed image and the grid. *)
Definition covered (led : LEDMatrix) (img : Image) (offset : Z * Z) (x y : Z) : Prop :=
  (0 <= x /\ offset.1 <= x < extent (width led) offset.1 (im_size img).1 + offset.1) /\
  (0 <= y /\ offset.2 <= y < extent (height led) offset.2 (im_size img).2 + offset.2).

(** What the background fill leaves in every physical pixel. *)
Definition fill (self : ImageAnim) : result color :=
  if bool_decide (_bgcolor self <> (0, 0, 0))
  then gamma3 (gamma (_led self)) (_bgcolor self)
  else Ok (0, 0, 0).

(** A scaling function that keeps channels within [0, 255] at a level. *)
Definition scale_ok (level : Z) : Prop :=
  forall c, color_ok c = true -> color_ok (color_scale c level) = true.

(** * Properties *)

(** ** The error monad and loops *)

Lemma bind_Ok {A B} (m : result A) (f : A -> result B) (b : B) :
  (m ≫= f) = Ok b -> exists a, m = Ok a /\ f a = Ok b.
Proof. destruct m as [a|e]; simpl; [eauto | discriminate]. Qed.

Ltac bind_inv H :=
  let x := fresh "x" in
  let Hx := fresh "Hx" in
  apply bind_Ok in H; destruct H as (x & Hx & H).

Ltac bind_inv_as H x Hx :=
  apply bind_Ok in H; destruct H as (x & Hx & H).

Lemma bind_Ok_l {A B} (a : A) (f : A -> result B) : (Ok a ≫= f) = f a.
Proof. reflexivity. Qed.

Lemma for_each_app {X S} (xs ys : list X) (body : X -> S -> result S) (s : S) :
  for_each (xs ++ ys) body s = (s' ← for_each xs body s; for_each ys body s').
Proof.
  revert s; induction xs as [|x xs IH]; intros s; simpl; [reflexivity|].
  destruct (body x s) as [s1|e]; simpl; [apply IH | reflexivity].
Qed.

(** A property kept by every turn of a loop holds when the loop is over. *)
Lemma for_each_invariant {X S} (I : S -> Prop) (xs : list X) body (s s' : S) :
  I s ->
  (forall x s1 s2, x ∈ xs -> I s1 -> body x s1 = Ok s2 -> I s2) ->
  for_each xs body s = Ok s' -> I s'.
Proof.
  revert s; induction xs as [|x xs IH]; intros s Hs Hbody H; simpl in H.
  - congruence.
  - bind_inv H. apply (IH x0); [| |assumption].
    + eapply Hbody; [left | exact Hs | exact Hx].
    + intros y s1 s2 Hy. apply Hbody. by right.
Qed.

(** A loop whose turns cannot fail under an invariant cannot fail. *)
Lemma for_each_total {X S} (I : S -> Prop) (xs : list X) body (s : S) :
  I s ->
  (forall x s1, x ∈ xs -> I s1 -> exists s2, body x s1 = Ok s2 /\ I s2) ->
  exists s', for_each xs body s = Ok s' /\ I s'.
Proof.
  revert s; induction xs as [|x xs IH]; intros s Hs Hbody; simpl.
  - eauto.
  - destruct (Hbody x s) as (s2 & -> & Hs2); [left | assumption |]. simpl.
    apply IH; [assumption|]. intros y s1 Hy. apply Hbody. by right.
Qed.

(** What the turn for [x0] establishes, and every turn keeps, holds when
    the loop is over. *)
Lemma for_each_establish {X S} (I J : S -> Prop) (x0 : X) (xs : list X) body (s s' : S) :
  x0 ∈ xs -> I s ->
  (forall x s1 s2, x ∈ xs -> I s1 -> body x s1 = Ok s2 -> I s2) ->
  (forall s1 s2, I s1 -> body x0 s1 = Ok s2 -> J s2) ->
  (forall x s1 s2, x ∈ xs -> I s1 -> J s1 -> body x s1 = Ok s2 -> J s2) ->
  for_each xs body s = Ok s' -> J s'.
Proof.
  intros Hin Hs HI Hest Hkeep. revert s Hs.
  induction xs as [|x xs IH]; intros s Hs H; [by apply elem_of_nil in Hin|].
  simpl in H. bind_inv H.
  assert (HI1 : I x1) by (eapply HI; [left | exact Hs | exact Hx]).
  apply elem_of_cons in Hin as [->|Hin].
  - assert (HJ1 : J x1) by (eapply Hest; [exact Hs | exact Hx]).
    revert H. apply (for_each_invariant (fun t => I t /\ J t)); [by split|].
    intros y s1 s2 Hy [? ?] Hb. split.
    + eapply HI; [by right | eassumption | eassumption].
    + eapply Hkeep; [by right | eassumption | eassumption | eassumption].
  - apply (IH Hin) with (s := x1); try assumption.
    + intros y s1 s2 Hy. apply HI. by right.
    + intros y s1 s2 Hy. apply Hkeep. by right.
Qed.

(** ** Python indexing *)

Lemma py_index_nonneg (n : nat) (k : Z) :
  0 <= k -> py_index n k = if bool_decide (k < Z.of_nat n) then Some (Z.to_nat k) else None.
Proof.
  intros Hk. unfold py_index. repeat case_bool_decide; try reflexivity; lia.
Qed.

Lemma getitem_Ok {A} (l : list A) (k : Z) :
  0 <= k < Z.of_nat (length l) ->
  exists v, l !! Z.to_nat k = Some v /\ getitem l k = Ok v.
Proof.
  intros Hk. unfold getitem. rewrite py_index_nonneg by lia.
  rewrite bool_decide_true by lia.
  destruct (lookup_lt_is_Some_2 l (Z.to_nat k)) as [v Hv]; [lia|].
  exists v. by rewrite Hv.
Qed.

Lemma getitem_inv {A} (l : list A) (k : Z) (v : A) :
  getitem l k = Ok v -> 0 <= k ->
  k < Z.of_nat (length l) /\ l !! Z.to_nat k = Some v.
Proof.
  unfold getitem. intros H Hk. rewrite py_index_nonneg in H by lia.
  case_bool_decide; [|discriminate]. split; [assumption|].
  destruct (l !! Z.to_nat k); congruence.
Qed.

Lemma setitem_Ok {A} (l : list A) (k : Z) (v : A) :
  0 <= k < Z.of_nat (length l) -> setitem l k v = Ok (<[Z.to_nat k := v]> l).
Proof.
  intros Hk. unfold setitem. rewrite py_index_nonneg by lia.
  by rewrite bool_decide_true by lia.
Qed.

Lemma setitem_inv {A} (l l' : list A) (k : Z) (v : A) :
  setitem l k v = Ok l' -> 0 <= k ->
  k < Z.of_nat (length l) /\ l' = <[Z.to_nat k := v]> l.
Proof.
  unfold setitem. intros H Hk. rewrite py_index_nonneg in H by lia.
  case_bool_decide; [|discriminate]. split; congruence.
Qed.

Lemma setitem_length {A} (l l' : list A) (k : Z) (v : A) :
  setitem l k v = Ok l' -> length l' = length l.
Proof.
  unfold setitem. destruct (py_index _ _); [|discriminate].
  intros [= <-]. apply length_insert.
Qed.

Lemma elem_of_range (a b k : Z) : k ∈ range a b <-> a <= k < b.
Proof. unfold range. rewrite elem_of_seqZ. lia. Qed.

(** ** Playback *)

Lemma step_playable (self : ImageAnim) :
  playable self ->
  exists self', step self = Ok self' /\
    _images self !! Z.to_nat (_curImage self) = Some (shown self') /\
    _images self' = _images self /\ _count self' = _count self /\
    (if bool_decide (_curImage self + 1 = _count self)
     then _curImage self' = 0 /\ animComplete self' = true
     else _curImage self' = _curImage self + 1 /\
          animComplete self' = animComplete self).
Proof.
  intros [Hcount Hcur]. unfold step. cbn [set_led _images _curImage].
  destruct (getitem_Ok (_images self) (_curImage self)) as ([d buf] & Hfr & ->); [lia|].
  cbn. eexists. split; [reflexivity|].
  unfold shown. repeat case_bool_decide; try lia; cbn; rewrite Hfr; auto.
Qed.

Lemma step_keeps_playable (self self' : ImageAnim) :
  playable self -> step self = Ok self' -> playable self'.
Proof.
  intros Hp Hs. destruct (step_playable self Hp) as (s & Hs' & _ & Him & Hc & Hcur).
  assert (s = self') as -> by congruence.
  destruct Hp as [Hcount Hrange]. unfold playable. rewrite Him, Hc.
  split; [assumption|]. case_bool_decide; destruct Hcur as [-> _]; lia.
Qed.

Lemma preRun_playable (self : ImageAnim) : playable self -> playable (preRun self).
Proof. intros [Hc Hr]. unfold playable, preRun. cbn. lia. Qed.

Lemma steps_S (n : nat) (self : ImageAnim) :
  steps (S n) self = (s ← steps n self; step s).
Proof.
  unfold steps. rewrite replicate_S_end, for_each_app.
  destruct (for_each (replicate n Step) run_call self) as [s|e]; cbn; [|reflexivity].
  by destruct (step s).
Qed.

(** Short of the last frame, [k] steps from the first frame put the cursor
    on frame [k] and leave the completion flag as it was. *)
Lemma steps_before_wrap (self : ImageAnim) (k : nat) :
  playable self -> _curImage self = 0 -> Z.of_nat k < _count self ->
  exists s, steps k self = Ok s /\ _curImage s = Z.of_nat k /\
    animComplete s = animComplete self /\
    _images s = _images self /\ _count s = _count self.
Proof.
  intros Hp H0. induction k as [|k IH]; intros Hk.
  - exists self. by repeat split.
  - destruct IH as (s & Hs & Hcur & Hflag & Him & Hc); [lia|].
    assert (Hps : playable s).
    { destruct Hp as [Hp1 Hp2]. unfold playable. rewrite Him, Hc, Hcur. lia. }
    destruct (step_playable s Hps) as (s' & Hs' & _ & Him' & Hc' & Hnext).
    rewrite bool_decide_false in Hnext by lia. destruct Hnext as [Hcur' Hflag'].
    exists s'. rewrite steps_S, Hs. cbn. split; [assumption|].
    repeat split; try congruence. lia.
Qed.

(** Calls of [step] and [preRun], in any order, never fail on a playable
    animation and leave it playable, with the same frames. *)
Lemma calls_playable (calls : list call) (self : ImageAnim) :
  playable self ->
  exists self', for_each calls run_call self = Ok self' /\
    playable self' /\ _images self' = _images self.
Proof.
  intros Hp.
  destruct (for_each_total
              (fun s => playable s /\ _images s = _images self)
              calls run_call self) as (s & Hs & Hps & Him); [by split| |eauto].
  intros [|] s1 _ [Hp1 Him1]; cbn.
  - destruct (step_playable s1 Hp1) as (s2 & Hs2 & _ & Him2 & _).
    exists s2. split; [assumption|]. split; [|congruence].
    eapply step_keeps_playable; eassumption.
  - eexists. split; [reflexivity|]. split; [by apply preRun_playable | assumption].
Qed.

(** ** Construction *)

(** The compositor reads the layout, the brightness and the background
    colour of [self], and nothing else of it. *)
Lemma render_reads (s1 s2 : ImageAnim) (img : Image) (off : Z * Z) :
  _led s1 = _led s2 -> _bright s1 = _bright s2 -> _bgcolor s1 = _bgcolor s2 ->
  _getBufferFromImage s1 img off = _getBufferFromImage s2 img off.
Proof.
  destruct s1, s2; cbn; intros -> -> ->. reflexivity.
Qed.

Lemma gif_loop (imgs : list Image) (s s' : ImageAnim) :
  for_each imgs gif_append s = Ok s' ->
  exists frs,
    Forall2 (fun img fr => _getBufferFromImage s img (_offset s) = Ok fr) imgs frs /\
    s' = set_count (set_images s (_images s ++ frs))
                   (_count s + Z.of_nat (length imgs)).
Proof.
  revert s; induction imgs as [|img imgs IH]; intros s H; cbn in H.
  - injection H as <-. exists []. split; [constructor|].
    destruct s; unfold set_count, set_images; cbn. rewrite app_nil_r. f_equal. lia.
  - bind_inv H. unfold gif_append in Hx. bind_inv Hx. injection Hx as <-.
    destruct (IH _ H) as (frs & Hfrs & ->). exists (x0 :: frs). split.
    + constructor; [assumption|].
      eapply Forall2_impl; [exact Hfrs|]. intros i fr <-. by apply render_reads.
    + unfold set_count, set_images; cbn. f_equal.
      * by rewrite <- app_assoc.
      * rewrite Nat2Z.inj_succ. lia.
Qed.

Lemma bmp_append_inv (img : BmpFile) (s s' : ImageAnim) :
  bmp_append img s = Ok s' ->
  _offset s <> (0, 0) /\
  exists fr, _getBufferFromImage s (bmp_image img) (_offset s) = Ok fr /\
    s' = set_images s (_images s ++ [fr]).
Proof.
  unfold bmp_append. intros H. case_bool_decide as Hoff; [discriminate|].
  cbn in H. bind_inv H. injection H as <-. eauto.
Qed.

Lemma bmp_loop (imgs : list BmpFile) (s s' : ImageAnim) :
  for_each imgs bmp_append s = Ok s' ->
  (imgs <> [] -> _offset s <> (0, 0)) /\
  exists frs,
    Forall2 (fun img fr => _getBufferFromImage s img (_offset s) = Ok fr)
            (bmp_image <$> imgs) frs /\
    s' = set_images s (_images s ++ frs).
Proof.
  revert s; induction imgs as [|img imgs IH]; intros s H; cbn in H.
  - injection H as <-. split; [done|]. exists []. split; [constructor|].
    destruct s; unfold set_images; cbn. by rewrite app_nil_r.
  - bind_inv H. apply bmp_append_inv in Hx as (Hoff & fr & Hfr & ->).
    destruct (IH _ H) as (_ & frs & Hfrs & ->). split; [done|].
    exists (fr :: frs). split.
    + cbn. constructor; [assumption|].
      eapply Forall2_impl; [exact Hfrs|]. intros i fr' <-. by apply render_reads.
    + unfold set_images; cbn. f_equal. by rewrite <- app_assoc.
Qed.

(** What a successful construction leaves in the object. *)
Lemma init_inv (led : LEDMatrix) (src : Source) (offset : Z * Z) (bgcolor : color)
    (brightness : Z) (a : ImageAnim) :
  __init__ led src offset bgcolor brightness = Ok a ->
  _led a = led /\
  _bright a = effective_brightness led brightness /\
  _bgcolor a = color_scale bgcolor (_bright a) /\
  _offset a = placement led src offset /\
  Forall2 (fun img fr => _getBufferFromImage a img (_offset a) = Ok fr)
          (frames src) (_images a) /\
  _count a = Z.of_nat (length (_images a)) /\ 1 <= _count a /\
  _curImage a = 0 /\ animComplete a = false.
Proof.
  unfold __init__. intros H. bind_inv H. injection H as <-.
  destruct src as [img later | imgs].
  - apply gif_loop in Hx as (frs & Hfrs & ->).
    pose proof (Forall2_length _ _ _ Hfrs) as Hlen. cbn in Hlen.
    cbn in *. case_bool_decide; cbn in *;
      (repeat split; try reflexivity;
       [ eapply Forall2_impl; [exact Hfrs|]; intros i fr <-; by apply render_reads
       | rewrite <- Hlen; lia
       | lia ]).
  - cbn in Hx. case_bool_decide as Hn; [discriminate|].
    apply bmp_loop in Hx as (_ & frs & Hfrs & ->). cbn.
    pose proof (Forall2_length _ _ _ Hfrs) as Hlen. rewrite length_fmap in Hlen.
    repeat split; try reflexivity.
    + eapply Forall2_impl; [exact Hfrs|]. intros i fr <-. by apply render_reads.
    + by rewrite Hlen.
    + lia.
Qed.

Lemma init_playable (led : LEDMatrix) (src : Source) (offset : Z * Z) (bgcolor : color)
    (brightness : Z) (a : ImageAnim) :
  __init__ led src offset bgcolor brightness = Ok a -> playable a.
Proof.
  intros H. apply init_inv in H as (_ & _ & _ & _ & _ & Hc & H1 & H0 & _).
  unfold playable. lia.
Qed.

(** ** Writing one pixel *)

Lemma put_pixel_Ok (gm buf : list Z) (p : Z) (c v : color) :
  0 <= p -> p * 3 + 2 < Z.of_nat (length buf) -> gamma3 gm c = Ok v ->
  put_pixel gm buf p c = Ok (paint buf p v).
Proof.
  intros Hp Hlen Hg. destruct c as [[r g] b]. unfold gamma3 in Hg.
  bind_inv Hg. bind_inv Hg. bind_inv Hg. injection Hg as <-.
  unfold put_pixel, paint. rewrite Hx. cbn. rewrite setitem_Ok by lia. cbn.
  rewrite Hx0. cbn. rewrite setitem_Ok by (rewrite length_insert; lia). cbn.
  rewrite Hx1. cbn. rewrite setitem_Ok by (rewrite !length_insert; lia).
  reflexivity.
Qed.

Lemma put_pixel_inv (gm buf buf' : list Z) (p : Z) (c : color) :
  put_pixel gm buf p c = Ok buf' -> 0 <= p ->
  exists v, gamma3 gm c = Ok v /\ p * 3 + 2 < Z.of_nat (length buf) /\
    buf' = paint buf p v.
Proof.
  intros H Hp. destruct c as [[r g] b]. unfold put_pixel in H.
  bind_inv H. bind_inv H. bind_inv H. bind_inv H. bind_inv H.
  apply setitem_inv in Hx0 as [_ ->]; [|lia].
  apply setitem_inv in Hx2 as [_ ->]; [|lia].
  apply setitem_inv in H as [Hlen ->]; [|lia].
  rewrite !length_insert in Hlen.
  exists (x, x1, x3). unfold gamma3. rewrite Hx, Hx1, Hx3. cbn. auto.
Qed.

Lemma paint_length (buf : list Z) (p : Z) (v : color) :
  length (paint buf p v) = length buf.
Proof. destruct v as [[r g] b]. unfold paint. by rewrite !length_insert. Qed.

Lemma pixel_at_paint (buf : list Z) (p : Z) (v : color) :
  0 <= p -> p * 3 + 2 < Z.of_nat (length buf) ->
  pixel_at (paint buf p v) p = Some v.
Proof.
  intros Hp Hlen. destruct v as [[r g] b]. unfold pixel_at.
  assert (H0 : paint buf p (r, g, b) !! Z.to_nat (p * 3 + 0) = Some r).
  { unfold paint. rewrite !list_lookup_insert_ne by lia.
    apply list_lookup_insert_eq. lia. }
  assert (H1 : paint buf p (r, g, b) !! Z.to_nat (p * 3 + 1) = Some g).
  { unfold paint. rewrite list_lookup_insert_ne by lia.
    apply list_lookup_insert_eq. rewrite length_insert. lia. }
  assert (H2 : paint buf p (r, g, b) !! Z.to_nat (p * 3 + 2) = Some b).
  { unfold paint. apply list_lookup_insert_eq. rewrite !length_insert. lia. }
  rewrite H0, H1, H2. reflexivity.
Qed.

Lemma pixel_at_paint_ne (buf : list Z) (p q : Z) (v : color) :
  0 <= p -> 0 <= q -> p <> q -> pixel_at (paint buf p v) q = pixel_at buf q.
Proof.
  intros Hp Hq Hne. destruct v as [[r g] b]. unfold pixel_at, paint.
  by rewrite !list_lookup_insert_ne by lia.
Qed.

(** ** Well-formed inputs *)

Lemma forallb_range (f : Z -> bool) (a b : Z) :
  forallb f (range a b) = true -> forall k, a <= k < b -> f k = true.
Proof.
  rewrite forallb_forall. intros H k Hk. apply H.
  apply list_elem_of_In, elem_of_range, Hk.
Qed.

Lemma layout_ok_spec (led : LEDMatrix) :
  layout_ok led = true ->
  0 <= numLEDs led /\ bufByteCount led = 3 * numLEDs led /\
  length (gamma led) = 256%nat /\
  forall x y, 0 <= x < width led -> 0 <= y < height led ->
    exists p, cell led x y = Ok p /\ 0 <= p < numLEDs led.
Proof.
  unfold layout_ok. rewrite andb_true_iff, bool_decide_eq_true.
  intros [(Hn & Hb & Hg) Hcells]. repeat split; try assumption.
  intros x y Hx Hy.
  pose proof (forallb_range _ _ _ (forallb_range _ _ _ Hcells y Hy) x Hx) as Hc.
  unfold cell_ok in Hc. destruct (cell led x y) as [p|]; [|discriminate].
  exists p. split; [reflexivity|]. by apply bool_decide_eq_true in Hc.
Qed.

Lemma image_ok_spec (img : Image) (x y : Z) :
  image_ok img = true ->
  0 <= x < (im_size img).1 -> 0 <= y < (im_size img).2 ->
  exists px, getpixel img (x, y) = Ok px /\ rgba_ok px = true.
Proof.
  unfold image_ok, getpixel. rewrite andb_true_iff, bool_decide_eq_true.
  destruct (im_size img) as [w h]. cbn. intros [(Hw & Hh & Hlen) Hpx] Hx Hy.
  rewrite bool_decide_true by lia.
  destruct (lookup_lt_is_Some_2 (im_data img) (Z.to_nat (y * w + x))) as [px Hlk]; [nia|].
  rewrite Hlk. exists px. split; [reflexivity|].
  rewrite forallb_forall in Hpx. apply Hpx, list_elem_of_In.
  eapply list_elem_of_lookup_2, Hlk.
Qed.

Lemma chan_ok_spec (v : Z) : chan_ok v = true <-> 0 <= v <= 255.
Proof. unfold chan_ok. apply bool_decide_eq_true. Qed.

Lemma gamma3_Ok (gm : list Z) (c : color) :
  length gm = 256%nat -> color_ok c = true -> exists v, gamma3 gm c = Ok v.
Proof.
  intros Hlen. destruct c as [[r g] b]. unfold color_ok.
  rewrite !andb_true_iff, !chan_ok_spec. intros [[Hr Hg] Hb].
  unfold gamma3.
  destruct (getitem_Ok gm r) as (vr & _ & ->); [lia|].
  destruct (getitem_Ok gm g) as (vg & _ & ->); [lia|].
  destruct (getitem_Ok gm b) as (vb & _ & ->); [lia|].
  cbn. eauto.
Qed.

Lemma premultiply_ok (c a : Z) :
  0 <= c <= 255 -> 0 <= a <= 255 -> 0 <= Z.shiftr (c * a) 8 <= 255.
Proof.
  intros Hc Ha. rewrite Z.shiftr_div_pow2 by lia. change (2 ^ 8) with 256.
  split; [apply Z.div_pos; nia|].
  assert (c * a / 256 < 256); [|lia]. apply Z.div_lt_upper_bound; nia.
Qed.

Lemma pixel_color_ok (self : ImageAnim) (px : rgba) :
  color_ok (_bgcolor self) = true -> rgba_ok px = true ->
  (_bright self <> 255 -> scale_ok (_bright self)) ->
  color_ok (pixel_color self px) = true.
Proof.
  intros Hbg Hpx Hscale. destruct px as [[[r g] b] a]. unfold rgba_ok in Hpx.
  rewrite !andb_true_iff, !chan_ok_spec in Hpx. destruct Hpx as [[[Hr Hg] Hb] Ha].
  assert (Hc : color_ok (if bool_decide (a = 0) then _bgcolor self
                         else (Z.shiftr (r * a) 8, Z.shiftr (g * a) 8,
                               Z.shiftr (b * a) 8)) = true).
  { case_bool_decide; [assumption|]. unfold color_ok.
    rewrite !andb_true_iff, !chan_ok_spec. auto using premultiply_ok. }
  unfold pixel_color. cbv zeta.
  destruct (decide (_bright self <> 255)) as [Hl|Hl].
  - rewrite (bool_decide_eq_true_2 _ Hl). by apply Hscale.
  - rewrite (bool_decide_eq_false_2 _ Hl). exact Hc.
Qed.

Lemma extent_le (led_len off img_len : Z) :
  extent led_len off img_len <= led_len - off /\
  extent led_len off img_len <= img_len.
Proof. unfold extent. case_bool_decide; lia. Qed.

Lemma covered_in_grid (led : LEDMatrix) (img : Image) (offset : Z * Z) (x y : Z) :
  covered led img offset x y ->
  (0 <= x < width led /\ 0 <= y < height led) /\
  (0 <= x - offset.1 < (im_size img).1 /\ 0 <= y - offset.2 < (im_size img).2).
Proof.
  unfold covered.
  pose proof (extent_le (width led) offset.1 (im_size img).1).
  pose proof (extent_le (height led) offset.2 (im_size img).2). lia.
Qed.

(** ** The compositor on one frame *)

Lemma gamma3_getitem (gm : list Z) (r g b : Z) (v : color) :
  gamma3 gm (r, g, b) = Ok v ->
  exists r' g' b', v = (r', g', b') /\
    getitem gm r = Ok r' /\ getitem gm g = Ok g' /\ getitem gm b = Ok b'.
Proof.
  unfold gamma3. intros H. bind_inv H. bind_inv H. bind_inv H.
  injection H as <-. eauto 7.
Qed.

Lemma pixel_at_blank (n : nat) (i : Z) :
  0 <= i -> i * 3 + 2 < Z.of_nat n ->
  pixel_at (replicate n 0) i = Some (0, 0, 0).
Proof.
  intros Hi Hn. unfold pixel_at.
  rewrite !lookup_replicate_2 by lia. reflexivity.
Qed.

Section Compose.

Variables (self : ImageAnim) (img : Image) (offset : Z * Z).
Hypothesis Hlayout : layout_ok (_led self) = true.

Local Abbreviation xs :=
  (range offset.1 (extent (width (_led self)) offset.1 (im_size img).1 + offset.1)).
Local Abbreviation ys :=
  (range offset.2 (extent (height (_led self)) offset.2 (im_size img).2 + offset.2)).
Local Abbreviation size_ok buf :=
  (length buf = Z.to_nat (bufByteCount (_led self))).

(** The background fill succeeds and leaves [fill] in every physical pixel. *)
Lemma background_spec :
  color_ok (_bgcolor self) = true ->
  exists buf v, background self = Ok buf /\ fill self = Ok v /\ size_ok buf /\
    forall i, 0 <= i < numLEDs (_led self) -> pixel_at buf i = Some v.
Proof.
  intros Hbg. destruct (layout_ok_spec _ Hlayout) as (Hn & Hb & Hg & _).
  unfold background, fill. case_bool_decide as Hz.
  - destruct (gamma3_Ok _ _ Hg Hbg) as [v Hv].
    destruct (for_each_total (fun buf => size_ok buf)
                (range 0 (numLEDs (_led self)))
                (fun i buffer => put_pixel (gamma (_led self)) buffer i (_bgcolor self))
                (replicate (Z.to_nat (bufByteCount (_led self))) 0))
      as (buf & Hbuf & Hlen).
    { apply length_replicate. }
    { intros i s1 Hi%elem_of_range Hs1.
      rewrite (put_pixel_Ok _ _ _ _ v) by (assumption || lia).
      eexists. split; [reflexivity|]. by rewrite paint_length. }
    exists buf, v. repeat split; try assumption.
    intros i Hi. revert Hbuf.
    apply (for_each_establish (fun buf => size_ok buf)
             (fun buf => pixel_at buf i = Some v) i).
    + by apply elem_of_range.
    + apply length_replicate.
    + intros k s1 s2 Hk%elem_of_range Hs1 Hput.
      apply put_pixel_inv in Hput as (v' & _ & _ & ->); [|lia].
      by rewrite paint_length.
    + intros s1 s2 Hs1 Hput.
      apply put_pixel_inv in Hput as (v' & Hv' & Hlen' & ->); [|lia].
      rewrite pixel_at_paint by lia. congruence.
    + intros k s1 s2 Hk%elem_of_range Hs1 HJ Hput.
      apply put_pixel_inv in Hput as (v' & Hv' & Hlen' & ->); [|lia].
      destruct (decide (k = i)) as [->|Hne].
      * rewrite pixel_at_paint by lia. congruence.
      * rewrite pixel_at_paint_ne by lia. assumption.
  - eexists _, _. repeat split; [apply length_replicate|].
    intros i Hi. apply pixel_at_blank; lia.
Qed.

(** One turn of the inner loop: nothing changes at a skipped coordinate;
    at a covered one, the pixel the map names takes the gamma-corrected
    colour of the sample and every other pixel keeps its bytes. *)
Lemma draw_effect (x y : Z) (s1 s2 : list Z) :
  x ∈ xs -> y ∈ ys ->
  draw self img offset.1 offset.2 (gamma (_led self)) x y s1 = Ok s2 ->
  length s2 = length s1 /\
  ((~ covered (_led self) img offset x y /\ s2 = s1) \/
   (covered (_led self) img offset x y /\
    exists p px v,
      cell (_led self) x y = Ok p /\ 0 <= p < numLEDs (_led self) /\
      getpixel img (x - offset.1, y - offset.2) = Ok px /\
      gamma3 (gamma (_led self)) (pixel_color self px) = Ok v /\
      p * 3 + 2 < Z.of_nat (length s1) /\ s2 = paint s1 p v)).
Proof.
  intros Hx%elem_of_range Hy%elem_of_range H. unfold draw in H.
  case_bool_decide as Hskip.
  - injection H as <-. split; [reflexivity|]. left. split; [|reflexivity].
    unfold covered. lia.
  - assert (Hcov : covered (_led self) img offset x y) by (unfold covered; lia).
    destruct (covered_in_grid _ _ _ _ _ Hcov) as [[Hgx Hgy] _].
    destruct (layout_ok_spec _ Hlayout) as (_ & _ & _ & Hcells).
    destruct (Hcells x y Hgx Hgy) as (p & Hp & Hrange).
    rewrite Hp, bind_Ok_l in H. bind_inv H.
    apply put_pixel_inv in H as (v & Hv & Hlen & ->); [|lia].
    split; [apply paint_length|]. right. split; [assumption|].
    exists p, x0, v. auto 7.
Qed.

(** One turn of the inner loop cannot fail on well-formed inputs. *)
Lemma draw_total (x y : Z) (s1 : list Z) :
  image_ok img = true -> color_ok (_bgcolor self) = true ->
  (_bright self <> 255 -> scale_ok (_bright self)) ->
  x ∈ xs -> y ∈ ys -> size_ok s1 ->
  exists s2, draw self img offset.1 offset.2 (gamma (_led self)) x y s1 = Ok s2 /\
    size_ok s2.
Proof.
  intros Himg Hbg Hscale Hx%elem_of_range Hy%elem_of_range Hs1. unfold draw.
  case_bool_decide as Hskip; [eauto|].
  assert (Hcov : covered (_led self) img offset x y) by (unfold covered; lia).
  destruct (covered_in_grid _ _ _ _ _ Hcov) as [[Hgx Hgy] [Hix Hiy]].
  destruct (layout_ok_spec _ Hlayout) as (Hn & Hb & Hg & Hcells).
  destruct (Hcells x y Hgx Hgy) as (p & -> & Hrange). rewrite bind_Ok_l.
  destruct (image_ok_spec img _ _ Himg Hix Hiy) as (px & -> & Hpx).
  rewrite bind_Ok_l.
  destruct (gamma3_Ok (gamma (_led self)) (pixel_color self px) Hg) as [v Hv].
  { by apply pixel_color_ok. }
  rewrite (put_pixel_Ok _ _ _ _ v) by (assumption || lia).
  eexists. split; [reflexivity|]. by rewrite paint_length.
Qed.

(** The compositor cannot fail on well-formed inputs, whatever the offset
    and the size of the image, and returns the duration of the image with a
    buffer of [bufByteCount] bytes. *)
Lemma render_total :
  image_ok img = true -> color_ok (_bgcolor self) = true ->
  (_bright self <> 255 -> scale_ok (_bright self)) ->
  exists buf, _getBufferFromImage self img offset = Ok (im_info_duration img, buf) /\
    size_ok buf.
Proof.
  intros Himg Hbg Hscale. unfold _getBufferFromImage.
  destruct (background_spec Hbg) as (buf0 & v & -> & _ & Hlen0 & _).
  rewrite bind_Ok_l.
  destruct (for_each_total (fun buf => size_ok buf) xs
              (fun x buffer => for_each ys (fun y buffer =>
                 draw self img offset.1 offset.2 (gamma (_led self)) x y buffer)
                 buffer) buf0) as (buf & -> & Hlen); [assumption| |].
  - intros x s1 Hx Hs1. apply for_each_total; [assumption|].
    intros y t1 Hy Ht1. by apply draw_total.
  - rewrite bind_Ok_l. eauto.
Qed.

(** A physical pixel that no covered coordinate is mapped to keeps the
    background fill. *)
Lemma render_uncovered (d : option Z) (buf : list Z) (v : color) (i : Z) :
  color_ok (_bgcolor self) = true ->
  _getBufferFromImage self img offset = Ok (d, buf) ->
  fill self = Ok v -> 0 <= i < numLEDs (_led self) ->
  (forall x y, covered (_led self) img offset x y -> cell (_led self) x y <> Ok i) ->
  pixel_at buf i = Some v.
Proof.
  intros Hbg H Hv Hi Hfree. unfold _getBufferFromImage in H.
  destruct (background_spec Hbg) as (buf0 & v' & Hbuf0 & Hv' & _ & Hfill).
  rewrite Hbuf0, bind_Ok_l in H. bind_inv_as H out Hout. injection H as _ <-.
  assert (v' = v) as -> by congruence.
  revert Hout. apply (for_each_invariant (fun b => pixel_at b i = Some v)); [by apply Hfill|].
  intros x s1 s2 Hx Hs1.
  apply (for_each_invariant (fun b => pixel_at b i = Some v)); [assumption|].
  intros y t1 t2 Hy Ht1 Hd.
  destruct (draw_effect _ _ _ _ Hx Hy Hd)
    as [_ [[_ ->]|[Hcov (p & px & c & Hp & Hr & _ & _ & _ & ->)]]]; [assumption|].
  rewrite pixel_at_paint_ne; [assumption | lia | lia |].
  intros ->. by apply (Hfree x y).
Qed.

Section Target.

Variables (x y p : Z) (px : rgba).
Hypothesis Hcov : covered (_led self) img offset x y.
Hypothesis Hcell : cell (_led self) x y = Ok p.
Hypothesis Hpx : getpixel img (x - offset.1, y - offset.2) = Ok px.
Hypothesis Honly : forall x' y', covered (_led self) img offset x' y' ->
  cell (_led self) x' y' = Ok p -> x' = x /\ y' = y.

Local Abbreviation drawn buf :=
  (exists v, gamma3 (gamma (_led self)) (pixel_color self px) = Ok v /\
             pixel_at buf p = Some v).

Lemma draw_target (x' y' : Z) (s1 s2 : list Z) :
  x' ∈ xs -> y' ∈ ys ->
  draw self img offset.1 offset.2 (gamma (_led self)) x' y' s1 = Ok s2 ->
  (x' = x /\ y' = y) \/ drawn s1 -> drawn s2.
Proof.
  intros Hx' Hy' Hd Hcase.
  destruct (covered_in_grid _ _ _ _ _ Hcov) as [[Hgx Hgy] _].
  destruct (layout_ok_spec _ Hlayout) as (_ & _ & _ & Hcells).
  destruct (Hcells x y Hgx Hgy) as (p0 & Hp0 & Hrange).
  assert (p0 = p) as -> by congruence.
  destruct (draw_effect _ _ _ _ Hx' Hy' Hd)
    as [_ [[Hn ->]|[Hcov' (q & px' & v & Hq & Hqr & Hpx' & Hv & Hlen & ->)]]].
  - destruct Hcase as [[-> ->]|HJ]; [contradiction | assumption].
  - assert (Hsame : x' = x /\ y' = y -> drawn (paint s1 q v)).
    { intros [-> ->]. assert (q = p) as -> by congruence.
      assert (px' = px) as -> by congruence.
      exists v. split; [assumption|]. apply pixel_at_paint; lia. }
    destruct Hcase as [Heq|(v0 & Hv0 & Hat)]; [by apply Hsame|].
    destruct (decide (q = p)) as [->|Hne].
    + apply Hsame. by apply Honly.
    + exists v0. split; [assumption|]. rewrite pixel_at_paint_ne; [assumption|lia|lia|assumption].
Qed.

(** A covered coordinate whose physical pixel no other covered coordinate
    shares shows the gamma-corrected colour of its sample. *)
Lemma render_covered (d : option Z) (buf : list Z) :
  _getBufferFromImage self img offset = Ok (d, buf) -> drawn buf.
Proof.
  intros H. unfold _getBufferFromImage in H.
  bind_inv_as H buf0 Hbuf0. bind_inv_as H out Hout.
  injection H as _ <-. revert Hout.
  assert (Hinx : x ∈ xs) by (apply elem_of_range; unfold covered in Hcov; lia).
  assert (Hiny : y ∈ ys) by (apply elem_of_range; unfold covered in Hcov; lia).
  apply (for_each_establish (fun _ => True) (fun b => drawn b) x); auto.
  - intros s1 s2 _.
    apply (for_each_establish (fun _ => True) (fun b => drawn b) y); auto.
    + intros t1 t2 _ Hd. eapply draw_target; eauto.
    + intros y' t1 t2 Hy' _ HJ Hd. eapply draw_target; eauto.
  - intros x' s1 s2 Hx' _ HJ.
    apply (for_each_invariant (fun b => drawn b)); [assumption|].
    intros y' t1 t2 Hy' Ht1 Hd. eapply draw_target; eauto.
Qed.

End Target.

End Compose.

(** ** The compositor: totality, background and opaque frames *)

(** C8, as the code has it.  The compositor has no failure for frames of
    zero area, nor any other on well-formed inputs: whatever the offset and
    whatever the size of the frame, zero area included, it returns the
    duration of the frame and a buffer of [bufByteCount] bytes; for a frame
    of zero area that buffer is the background fill. *)
Theorem C8_compositor_returns (self : ImageAnim) (img : Image) (offset : Z * Z) :
  layout_ok (_led self) = true -> image_ok img = true ->
  color_ok (_bgcolor self) = true ->
  (_bright self <> 255 -> scale_ok (_bright self)) ->
  exists buf,
    _getBufferFromImage self img offset = Ok (im_info_duration img, buf) /\
    length buf = Z.to_nat (bufByteCount (_led self)) /\
    ((im_size img).1 = 0 \/ (im_size img).2 = 0 -> background self = Ok buf).
Proof.
  intros Hlayout Himg Hbg Hscale.
  destruct (render_total self img offset Hlayout Himg Hbg Hscale) as (buf & H & Hlen).
  exists buf. split; [exact H|]. split; [exact Hlen|]. intros Hzero.
  unfold _getBufferFromImage in H. bind_inv_as H buf0 Hbuf0. bind_inv_as H out Hout.
  injection H as <-. rewrite Hbuf0. f_equal. symmetry. revert Hout.
  apply (for_each_invariant (fun b => b = buf0)); [reflexivity|].
  intros x s1 s2 Hx%elem_of_range ->.
  apply (for_each_invariant (fun b => b = buf0)); [reflexivity|].
  intros y t1 t2 Hy%elem_of_range _ _. exfalso.
  pose proof (extent_le (width (_led self)) offset.1 (im_size img).1).
  pose proof (extent_le (height (_led self)) offset.2 (im_size img).2).
  lia.
Qed.

(** C5, as the code has it.  On well-formed inputs the compositor returns a
    buffer in which every physical pixel that no covered coordinate is
    mapped to holds [fill]: the gamma-corrected background colour kept by
    the object when that colour is not [(0, 0, 0)], and the bytes
    [(0, 0, 0)], with no gamma applied, when it is. *)
Theorem C5_uncovered_pixels_hold_fill (self : ImageAnim) (img : Image) (offset : Z * Z) :
  layout_ok (_led self) = true -> image_ok img = true ->
  color_ok (_bgcolor self) = true ->
  (_bright self <> 255 -> scale_ok (_bright self)) ->
  exists buf v,
    _getBufferFromImage self img offset = Ok (im_info_duration img, buf) /\
    fill self = Ok v /\
    (_bgcolor self <> (0, 0, 0) ->
       gamma3 (gamma (_led self)) (_bgcolor self) = Ok v) /\
    (_bgcolor self = (0, 0, 0) -> v = (0, 0, 0)) /\
    forall i, 0 <= i < numLEDs (_led self) ->
      (forall x y, covered (_led self) img offset x y -> cell (_led self) x y <> Ok i) ->
      pixel_at buf i = Some v.
Proof.
  intros Hlayout Himg Hbg Hscale.
  destruct (render_total self img offset Hlayout Himg Hbg Hscale) as (buf & H & _).
  destruct (background_spec self Hlayout Hbg) as (_ & v & _ & Hv & _).
  exists buf, v. split; [exact H|]. split; [exact Hv|].
  split; [|split].
  - intros Hne. unfold fill in Hv. by rewrite bool_decide_eq_true_2 in Hv.
  - intros Hz. unfold fill in Hv. rewrite bool_decide_eq_false_2 in Hv by tauto.
    congruence.
  - intros i Hi Hfree. eapply render_uncovered; eassumption.
Qed.

Lemma covered_full (led : LEDMatrix) (img : Image) (x y : Z) :
  im_size img = (width led, height led) ->
  covered led img (0, 0) x y <-> (0 <= x < width led /\ 0 <= y < height led).
Proof.
  intros Hsize. unfold covered, extent. rewrite Hsize. cbn.
  repeat case_bool_decide; lia.
Qed.

(** An opaque sample loses one unit in every channel that is not 0. *)
Lemma premultiply_opaque (c : Z) :
  0 <= c <= 255 -> Z.shiftr (c * 255) 8 = Z.max 0 (c - 1).
Proof.
  intros Hc. rewrite Z.shiftr_div_pow2 by lia. change (2 ^ 8) with 256.
  destruct (decide (c = 0)) as [->|Hne]; [reflexivity|].
  rewrite Z.max_r by lia. symmetry. apply (Z.div_unique _ _ _ (256 - c)); lia.
Qed.

(** C2, as the code has it.  For a frame of the size of the layout, at
    offset [(0, 0)] and brightness 255, the compositor returns, and every
    opaque sample whose physical pixel no other coordinate shares shows
    there as the gamma table applied to [(c * 255) >> 8] for each channel
    [c] of the sample, which is [c - 1] for a channel that is not 0. *)
Theorem C2_opaque_frame_premultiplied (self : ImageAnim) (img : Image) :
  layout_ok (_led self) = true -> image_ok img = true ->
  color_ok (_bgcolor self) = true -> _bright self = 255 ->
  im_size img = (width (_led self), height (_led self)) ->
  exists buf,
    _getBufferFromImage self img (0, 0) = Ok (im_info_duration img, buf) /\
    forall x y p r g b,
      0 <= x < width (_led self) -> 0 <= y < height (_led self) ->
      getpixel img (x, y) = Ok (r, g, b, 255) ->
      cell (_led self) x y = Ok p ->
      (forall x' y', 0 <= x' < width (_led self) -> 0 <= y' < height (_led self) ->
         cell (_led self) x' y' = Ok p -> x' = x /\ y' = y) ->
      exists v,
        gamma3 (gamma (_led self))
          (Z.shiftr (r * 255) 8, Z.shiftr (g * 255) 8, Z.shiftr (b * 255) 8) = Ok v /\
        pixel_at buf p = Some v.
Proof.
  intros Hlayout Himg Hbg Hbright Hsize.
  destruct (render_total self img (0, 0) Hlayout Himg Hbg) as (buf & H & _);
    [intros Hne; contradiction|].
  exists buf. split; [exact H|].
  intros x y p r g b Hx Hy Hpx Hcell Honly.
  assert (Hcolor : pixel_color self (r, g, b, 255)
                   = (Z.shiftr (r * 255) 8, Z.shiftr (g * 255) 8, Z.shiftr (b * 255) 8)).
  { unfold pixel_color. rewrite (bool_decide_eq_false_2 (255 = 0)) by lia.
    rewrite bool_decide_eq_false_2 by tauto. reflexivity. }
  rewrite <- Hcolor.
  apply (render_covered self img (0, 0) Hlayout x y p (r, g, b, 255))
    with (d := im_info_duration img); try assumption.
  - by apply covered_full.
  - cbn. by rewrite !Z.sub_0_r.
  - intros x' y' Hcov%covered_full; [|assumption]. apply Honly; tauto.
Qed.

(** A transparent sample takes the background colour kept by the object,
    scaled once more when the brightness is not 255, whatever its own red,
    green and blue. *)
Lemma pixel_color_transparent (self : ImageAnim) (r g b : Z) :
  pixel_color self (r, g, b, 0) =
  if bool_decide (_bright self <> 255)
  then color_scale (_bgcolor self) (_bright self) else _bgcolor self.
Proof. reflexivity. Qed.

(** ** Playback: the cycle, the reset and the cursor *)

Lemma steps_in_cycle (self : ImageAnim) (k : nat) :
  playable self -> _curImage self = 0 -> (k < length (_images self))%nat ->
  exists s, steps (S k) self = Ok s /\
    _images self !! k = Some (shown s) /\
    animComplete s =
      (if bool_decide (S k = length (_images self)) then true else animComplete self) /\
    _curImage s = (if bool_decide (S k = length (_images self)) then 0 else Z.of_nat (S k)) /\
    _images s = _images self /\ _count s = _count self.
Proof.
  intros Hp H0 Hk. pose proof Hp as [Hcount _].
  destruct (steps_before_wrap self k Hp H0) as (s & Hs & Hcur & Hflag & Him & Hc); [lia|].
  assert (Hps : playable s) by (unfold playable; rewrite Him, Hc, Hcur; lia).
  destruct (step_playable s Hps) as (s' & Hs' & Hshown & Him' & Hc' & Hnext).
  exists s'. rewrite steps_S, Hs. cbn. split; [assumption|].
  rewrite Him, Hcur, Nat2Z.id in Hshown. split; [assumption|].
  rewrite Hcur, Hc in Hnext.
  repeat case_bool_decide; try lia; destruct Hnext as [-> ->];
    repeat split; congruence || lia.
Qed.

(** C3, as the code has it.  From the first frame with the completion flag
    down, the k-th call of [step] hands over frame k of the sequence; the
    flag stays down through the first [len - 1] calls and is up after call
    [len]; call [len + 1] hands over the first frame again, and the flag is
    still up: [step] raises it and never lowers it. *)
Theorem C3_cycle_raises_flag_and_keeps_it (self : ImageAnim) :
  playable self -> _curImage self = 0 -> animComplete self = false ->
  (forall k : nat, (k < length (_images self))%nat ->
     exists s, steps (S k) self = Ok s /\
       _images self !! k = Some (shown s) /\
       animComplete s = bool_decide (S k = length (_images self))) /\
  (exists s, steps (S (length (_images self))) self = Ok s /\
     _images self !! 0%nat = Some (shown s) /\ animComplete s = true).
Proof.
  intros Hp H0 Hflag. pose proof Hp as [Hcount Hrange]. split.
  - intros k Hk.
    destruct (steps_in_cycle self k Hp H0 Hk) as (s & Hs & Hshown & Hf & _).
    exists s. repeat split; try assumption.
    rewrite Hf, Hflag. by case_bool_decide.
  - destruct (steps_in_cycle self (Nat.pred (length (_images self))) Hp H0)
      as (s & Hs & _ & Hf & Hcur & Him & Hc); [lia|].
    replace (S (Nat.pred (length (_images self)))) with (length (_images self)) in * by lia.
    rewrite bool_decide_eq_true_2 in Hf, Hcur by reflexivity.
    assert (Hps : playable s) by (unfold playable; rewrite Him, Hc, Hcur; lia).
    destruct (step_playable s Hps) as (s' & Hs' & Hshown & _ & _ & Hnext).
    exists s'. rewrite steps_S, Hs. cbn. split; [assumption|].
    rewrite Him, Hcur in Hshown. split; [assumption|].
    case_bool_decide; destruct Hnext as [_ ->]; [reflexivity | assumption].
Qed.

(** C6, as the code has it.  After any number of calls of [step] on a
    playable animation, [preRun] puts the cursor back on the first frame
    and leaves the frames alone; the completion flag it leaves as it finds
    it. *)
Theorem C6_preRun_rewinds_cursor_only (self : ImageAnim) (n : nat) :
  playable self ->
  exists s, steps n self = Ok s /\
    _curImage (preRun s) = 0 /\
    animComplete (preRun s) = animComplete s /\
    _images (preRun s) = _images self /\
    playable (preRun s).
Proof.
  intros Hp. destruct (calls_playable (replicate n Step) self Hp) as (s & Hs & Hps & Him).
  exists s. split; [exact Hs|]. repeat split; try (by apply preRun_playable); assumption.
Qed.

(** C7.  On a constructed animation every sequence of [step] and [preRun]
    calls runs without an exception and leaves at least one frame and the
    cursor on one of them; a further [step] succeeds too, and when it
    passes the last frame it puts the cursor on 0 and raises the completion
    flag in that same call. *)
Theorem C7_cursor_stays_in_range (led : LEDMatrix) (src : Source) (offset : Z * Z)
    (bgcolor : color) (brightness : Z) (a : ImageAnim) (calls : list call) :
  __init__ led src offset bgcolor brightness = Ok a ->
  exists s, for_each calls run_call a = Ok s /\
    (1 <= length (_images s))%nat /\
    0 <= _curImage s < Z.of_nat (length (_images s)) /\
    exists s', step s = Ok s' /\
      0 <= _curImage s' < Z.of_nat (length (_images s')) /\
      (if bool_decide (_curImage s + 1 = Z.of_nat (length (_images s)))
       then _curImage s' = 0 /\ animComplete s' = true
       else _curImage s' = _curImage s + 1 /\ animComplete s' = animComplete s).
Proof.
  intros Hinit. apply init_playable in Hinit.
  destruct (calls_playable calls a Hinit) as (s & Hs & Hps & _).
  exists s. split; [exact Hs|]. pose proof Hps as [Hc Hr].
  split; [lia|]. split; [lia|].
  destruct (step_playable s Hps) as (s' & Hs' & _ & Him & Hc' & Hnext).
  exists s'. split; [exact Hs'|].
  pose proof (step_keeps_playable s s' Hps Hs') as [Hc2 Hr2].
  split; [lia|]. by rewrite <- Hc.
Qed.

(** ** Construction: brightness and placement *)

(** C9.  A constructed animation keeps the layout's master brightness when
    the argument is 255 and the master brightness is not, and the argument
    itself when it is not 255; the background colour is scaled by the
    brightness kept, and every frame is composited by the object that keeps
    it.  So on a layout whose master brightness is not 255 no argument
    makes the animation keep 255. *)
Theorem C9_brightness_kept (led : LEDMatrix) (src : Source) (offset : Z * Z)
    (bgcolor : color) (brightness : Z) (a : ImageAnim) :
  __init__ led src offset bgcolor brightness = Ok a ->
  (brightness = 255 -> masterBrightness led <> 255 ->
     _bright a = masterBrightness led) /\
  (brightness <> 255 -> _bright a = brightness) /\
  _bgcolor a = color_scale bgcolor (_bright a) /\
  Forall2 (fun img fr => _getBufferFromImage a img (_offset a) = Ok fr)
          (frames src) (_images a) /\
  (masterBrightness led <> 255 -> _bright a <> 255).
Proof.
  intros H. apply init_inv in H as (_ & Hb & Hbg & _ & Hfr & _).
  unfold effective_brightness in Hb.
  repeat split; try assumption; intros; rewrite Hb; case_bool_decide; tauto || lia.
Qed.

(** The placement of a [.gif] given no offset, or the offset [(0, 0)]:
    one corner, centred on each axis where the first frame is smaller than
    the layout, 0 elsewhere, and every frame composited at that corner. *)
Lemma gif_centred (led : LEDMatrix) (img : Image) (later : list Image)
    (bgcolor : color) (brightness : Z) (a : ImageAnim) :
  __init__ led (GifFile img later) (0, 0) bgcolor brightness = Ok a ->
  _offset a = (Z.max 0 ((width led - (im_size img).1) / 2),
               Z.max 0 ((height led - (im_size img).2) / 2)) /\
  Forall2 (fun frame fr => _getBufferFromImage a frame (_offset a) = Ok fr)
          (img :: later) (_images a).
Proof.
  intros H. apply init_inv in H as (_ & _ & _ & Hoff & Hfr & _).
  split; [|exact Hfr]. rewrite Hoff. cbn. unfold gif_offset.
  f_equal; case_bool_decide.
  - apply eq_sym, Z.max_r, Z.div_pos; lia.
  - apply eq_sym, Z.max_l. apply Z.div_le_upper_bound; lia.
  - apply eq_sym, Z.max_r, Z.div_pos; lia.
  - apply eq_sym, Z.max_l. apply Z.div_le_upper_bound; lia.
Qed.

(** With a [.gif] the top-left corner is where the frames go only when the
    centred corner is the top-left corner: no offset argument places a
    smaller frame there otherwise. *)
Lemma gif_top_left_only_when_centred (led : LEDMatrix) (img : Image)
    (later : list Image) (offset : Z * Z) (bgcolor : color) (brightness : Z)
    (a : ImageAnim) :
  __init__ led (GifFile img later) offset bgcolor brightness = Ok a ->
  _offset a = (0, 0) -> gif_offset led img = (0, 0).
Proof.
  intros H Hzero. apply init_inv in H as (_ & _ & _ & Hoff & _).
  cbn in Hoff. case_bool_decide; congruence.
Qed.

(** C10, as the code has it.  With a [.gif] it is the value [(0, 0)] of
    the offset that triggers the centring: given [(0, 0)], the frames go,
    on every axis where the first frame is smaller than the layout, to the
    floor of half the difference, all frames to the same corner.  The
    top-left corner is reached only from the offset [(0, 0)], and only when
    the frame is one short of the layout on every axis where it is
    smaller, where the centred corner is the top-left one. *)
Theorem C10_zero_offset_centres_gif (led : LEDMatrix) (img : Image)
    (later : list Image) (offset : Z * Z) (bgcolor : color) (brightness : Z)
    (a : ImageAnim) :
  __init__ led (GifFile img later) offset bgcolor brightness = Ok a ->
  (offset = (0, 0) ->
     ((im_size img).1 < width led ->
        (_offset a).1 = (width led - (im_size img).1) / 2) /\
     ((im_size img).2 < height led ->
        (_offset a).2 = (height led - (im_size img).2) / 2)) /\
  Forall2 (fun frame fr => _getBufferFromImage a frame (_offset a) = Ok fr)
          (img :: later) (_images a) /\
  (_offset a = (0, 0) ->
     offset = (0, 0) /\
     ((im_size img).1 < width led -> width led - (im_size img).1 = 1) /\
     ((im_size img).2 < height led -> height led - (im_size img).2 = 1)).
Proof.
  intros H. apply init_inv in H as (_ & _ & _ & Hoff & Hfr & _).
  cbn in Hoff. unfold gif_offset in Hoff. split; [|split; [exact Hfr|]].
  - intros ->. rewrite bool_decide_eq_true_2 in Hoff by reflexivity.
    rewrite Hoff. cbn. split; intros Hlt; by rewrite bool_decide_eq_true_2.
  - intros Hzero. rewrite Hzero in Hoff. case_bool_decide as Hz; [|congruence].
    split; [assumption|]. injection Hoff as Hw Hh.
    split; intros Hlt.
    + rewrite bool_decide_eq_true_2 in Hw by assumption.
      pose proof (Z.div_mod (width led - (im_size img).1) 2).
      pose proof (Z.mod_pos_bound (width led - (im_size img).1) 2). lia.
    + rewrite bool_decide_eq_true_2 in Hh by assumption.
      pose proof (Z.div_mod (height led - (im_size img).2) 2).
      pose proof (Z.mod_pos_bound (height led - (im_size img).2) 2). lia.
Qed.

(** C4, where the code departs from it.  For a folder of still images the
    constructor given the offset [(0, 0)] raises [AttributeError] at the
    first file, whatever the files are: no offset is computed and no frame
    composited. *)
Theorem C4_folder_without_offset_raises (led : LEDMatrix) (first : BmpFile)
    (others : list BmpFile) (bgcolor : color) (brightness : Z) :
  __init__ led (BmpFolder (first :: others)) (0, 0) bgcolor brightness
  = Raise AttributeError.
Proof.
  unfold __init__. cbn. rewrite bool_decide_eq_false_2 by lia. reflexivity.
Qed.

(** ** What every composited buffer satisfies *)

Lemma getitem_elem {A} (l : list A) (k : Z) (v : A) :
  getitem l k = Ok v -> v ∈ l.
Proof.
  unfold getitem. destruct (py_index _ _) as [i|]; [|discriminate].
  destruct (l !! i) eqn:E; [|discriminate]. intros [= <-].
  eapply list_elem_of_lookup_2, E.
Qed.

(** A property of buffers that storing an entry of the gamma table keeps
    is kept by [put_pixel], by the background fill and by both loops. *)
Section Kept.

Variables (self : ImageAnim) (I : list Z -> Prop).
Hypothesis Hstore : forall (b : list Z) (i : nat) (v : Z),
  I b -> v ∈ gamma (_led self) -> I (<[i:=v]> b).

Lemma setitem_kept (b b' : list Z) (k v : Z) :
  I b -> v ∈ gamma (_led self) -> setitem b k v = Ok b' -> I b'.
Proof.
  intros Hb Hv. unfold setitem. destruct (py_index _ _); [|discriminate].
  intros [= <-]. by apply Hstore.
Qed.

Lemma put_pixel_kept (b b' : list Z) (p : Z) (c : color) :
  I b -> put_pixel (gamma (_led self)) b p c = Ok b' -> I b'.
Proof.
  intros Hb H. destruct c as [[r g] bl]. unfold put_pixel in H.
  bind_inv_as H v0 Hv0. bind_inv_as H b0 Hb0.
  bind_inv_as H v1 Hv1. bind_inv_as H b1 Hb1. bind_inv_as H v2 Hv2.
  apply getitem_elem in Hv0, Hv1, Hv2.
  eapply setitem_kept; [|exact Hv2|exact H].
  eapply setitem_kept; [|exact Hv1|exact Hb1].
  eapply setitem_kept; [exact Hb|exact Hv0|exact Hb0].
Qed.

Lemma render_kept (img : Image) (offset : Z * Z) (d : option Z) (buf : list Z) :
  I (replicate (Z.to_nat (bufByteCount (_led self))) 0) ->
  _getBufferFromImage self img offset = Ok (d, buf) ->
  d = im_info_duration img /\ I buf.
Proof.
  intros H0 H. unfold _getBufferFromImage in H.
  bind_inv_as H buf0 Hbuf0. bind_inv_as H out Hout. injection H as <- <-.
  split; [reflexivity|].
  assert (I buf0) as Hb0.
  { unfold background in Hbuf0. case_bool_decide; [|congruence].
    revert Hbuf0. apply for_each_invariant; [exact H0|].
    intros i s1 s2 _ Hs1. by apply put_pixel_kept. }
  revert Hout. apply for_each_invariant; [exact Hb0|].
  intros x s1 s2 _ Hs1. apply for_each_invariant; [exact Hs1|].
  intros y t1 t2 _ Ht1 Hd. unfold draw in Hd.
  case_bool_decide; [congruence|].
  bind_inv_as Hd pixel Hpixel. bind_inv_as Hd px Hpx.
  eapply put_pixel_kept; eassumption.
Qed.

End Kept.

(** Whenever the compositor returns, it returns the duration of the image
    and a buffer of [bufByteCount] bytes. *)
Lemma render_size (self : ImageAnim) (img : Image) (offset : Z * Z)
    (d : option Z) (buf : list Z) :
  _getBufferFromImage self img offset = Ok (d, buf) ->
  d = im_info_duration img /\
  length buf = Z.to_nat (bufByteCount (_led self)).
Proof.
  apply (render_kept self
           (fun b => length b = Z.to_nat (bufByteCount (_led self)))).
  - intros b i v Hb _. by rewrite length_insert.
  - apply length_replicate.
Qed.

Lemma init_frames_sized (led : LEDMatrix) (src : Source) (offset : Z * Z)
    (bgcolor : color) (brightness : Z) (a : ImageAnim) :
  __init__ led src offset bgcolor brightness = Ok a ->
  Forall2 (fun img fr =>
             fr.1 = im_info_duration img /\
             length fr.2 = Z.to_nat (bufByteCount led))
          (frames src) (_images a).
Proof.
  intros H. apply init_inv in H as (Hled & _ & _ & _ & Hfr & _).
  eapply Forall2_impl; [exact Hfr|]. intros img [d buf] Hr. cbn.
  apply render_size in Hr. by rewrite Hled in Hr.
Qed.

(** X1.  A constructed animation holds one frame for each frame of its
    source, in the order of the source; each has the duration its image
    carries, if any, and a buffer of exactly [bufByteCount] bytes, whatever
    the size of the image. *)
Theorem frames_follow_source (led : LEDMatrix) (src : Source) (offset : Z * Z)
    (bgcolor : color) (brightness : Z) (a : ImageAnim) :
  __init__ led src offset bgcolor brightness = Ok a ->
  _count a = Z.of_nat (length (frames src)) /\
  Forall2 (fun img fr =>
             fr.1 = im_info_duration img /\
             length fr.2 = Z.to_nat (bufByteCount led))
          (frames src) (_images a).
Proof.
  intros H. split; [|by eapply init_frames_sized].
  apply init_inv in H as (_ & _ & _ & _ & Hfr & Hc & _).
  rewrite Hc. f_equal. symmetry. eapply Forall2_length, Hfr.
Qed.

(** X2.  Every byte of every frame of a constructed animation is 0 or an
    entry of the gamma table: no colour reaches a buffer without passing
    through the table.  So a table of bytes gives buffers of bytes. *)
Theorem frame_bytes_come_from_gamma (led : LEDMatrix) (src : Source)
    (offset : Z * Z) (bgcolor : color) (brightness : Z) (a : ImageAnim) :
  __init__ led src offset bgcolor brightness = Ok a ->
  Forall (fun fr => Forall (fun v => v = 0 \/ v ∈ gamma led) fr.2) (_images a) /\
  (Forall (fun v => 0 <= v <= 255) (gamma led) ->
   Forall (fun fr => Forall (fun v => 0 <= v <= 255) fr.2) (_images a)).
Proof.
  intros H. apply init_inv in H as (Hled & _ & _ & _ & Hfr & _).
  assert (Hbytes : Forall (fun fr => Forall (fun v => v = 0 \/ v ∈ gamma led) fr.2)
                          (_images a)).
  { eapply Forall2_Forall_r; [exact Hfr|]. apply Forall_forall.
    intros img _ [d buf] Hr. cbn.
    apply (render_kept a
             (Forall (fun v => v = 0 \/ v ∈ gamma led))) in Hr as [_ Hr];
      [exact Hr| |].
    - intros b i v Hb Hv. rewrite Hled in Hv. apply Forall_insert; auto.
    - apply Forall_replicate. by left. }
  split; [exact Hbytes|]. intros Hgm.
  eapply Forall_impl; [exact Hbytes|]. intros fr Hfr'. cbn in Hfr'.
  eapply Forall_impl; [exact Hfr'|]. intros v [->|Hv]; [lia|].
  rewrite Forall_forall in Hgm. by apply Hgm.
Qed.

(** ** Placement: what is covered, and which sample a pixel shows *)

(** The covered coordinates are those of the grid under the placed image. *)
Lemma covered_iff (led : LEDMatrix) (img : Image) (offset : Z * Z) (x y : Z) :
  covered led img offset x y <->
  (0 <= x < width led /\ offset.1 <= x < offset.1 + (im_size img).1) /\
  (0 <= y < height led /\ offset.2 <= y < offset.2 + (im_size img).2).
Proof. unfold covered, extent. repeat case_bool_decide; lia. Qed.

Lemma for_each_noop {X S} (xs : list X) (body : X -> S -> result S) (s : S) :
  (forall x t, x ∈ xs -> body x t = Ok t) -> for_each xs body s = Ok s.
Proof.
  induction xs as [|x xs IH]; intros Hbody; [reflexivity|]. cbn.
  rewrite Hbody by left. rewrite bind_Ok_l. apply IH.
  intros y t Hy. apply Hbody. by right.
Qed.

Lemma range_split (a b x : Z) :
  a <= x < b -> range a b = range a x ++ x :: range (x + 1) b.
Proof.
  intros Hx. unfold range.
  replace (b - a) with ((x - a) + (b - x)) by lia.
  rewrite seqZ_app by lia. f_equal.
  replace (a + (x - a)) with x by lia.
  rewrite (seqZ_cons x (b - x)) by lia. f_equal. f_equal; lia.
Qed.

(** What the turn for [x0] establishes and the later turns keep holds
    when the loop is over, whatever the earlier turns did. *)
Lemma for_each_last {X S} (J : S -> Prop) (pre post : list X) (x0 : X)
    (body : X -> S -> result S) (s s' : S) :
  (forall s1 s2, body x0 s1 = Ok s2 -> J s2) ->
  (forall x s1 s2, x ∈ post -> J s1 -> body x s1 = Ok s2 -> J s2) ->
  for_each (pre ++ x0 :: post) body s = Ok s' -> J s'.
Proof.
  intros Hest Hkeep H. rewrite for_each_app in H.
  bind_inv_as H s0 Hs0. cbn in H. bind_inv_as H s1 Hs1.
  revert H. apply for_each_invariant; [by eapply Hest|]. exact Hkeep.
Qed.

(** X3.  An image placed so that it shares no coordinate with the grid
    (beyond the right or bottom edge, wholly above or left of the origin,
    or of no extent) leaves the buffer as the background fill made it; its
    samples are not read, so the image need not even be well formed. *)
Theorem image_off_layout_leaves_background (self : ImageAnim) (img : Image)
    (offset : Z * Z) :
  layout_ok (_led self) = true -> color_ok (_bgcolor self) = true ->
  (Z.min (width (_led self)) (offset.1 + (im_size img).1) <= Z.max 0 offset.1 \/
   Z.min (height (_led self)) (offset.2 + (im_size img).2) <= Z.max 0 offset.2) ->
  exists buf, background self = Ok buf /\
    _getBufferFromImage self img offset = Ok (im_info_duration img, buf).
Proof.
  intros Hlayout Hbg Hoff.
  destruct (background_spec self Hlayout Hbg) as (buf0 & _ & Hbuf0 & _).
  exists buf0. split; [exact Hbuf0|].
  unfold _getBufferFromImage. rewrite Hbuf0, bind_Ok_l.
  rewrite for_each_noop; [reflexivity|].
  intros x t Hx%elem_of_range. apply for_each_noop.
  intros y u Hy%elem_of_range. unfold draw.
  rewrite bool_decide_eq_true_2; [reflexivity|].
  pose proof (extent_le (width (_led self)) offset.1 (im_size img).1).
  pose proof (extent_le (height (_led self)) offset.2 (im_size img).2).
  lia.
Qed.

Lemma render_last_writer (self : ImageAnim) (img : Image)
    (offset : Z * Z) (x y p : Z) :
  layout_ok (_led self) = true -> image_ok img = true ->
  color_ok (_bgcolor self) = true ->
  (_bright self <> 255 -> scale_ok (_bright self)) ->
  0 <= x < width (_led self) -> offset.1 <= x < offset.1 + (im_size img).1 ->
  0 <= y < height (_led self) -> offset.2 <= y < offset.2 + (im_size img).2 ->
  cell (_led self) x y = Ok p ->
  (forall x' y', covered (_led self) img offset x' y' ->
     cell (_led self) x' y' = Ok p -> x' < x \/ (x' = x /\ y' <= y)) ->
  exists buf px v,
    _getBufferFromImage self img offset = Ok (im_info_duration img, buf) /\
    getpixel img (x - offset.1, y - offset.2) = Ok px /\
    gamma3 (gamma (_led self)) (pixel_color self px) = Ok v /\
    pixel_at buf p = Some v.
Proof.
  intros Hlayout Himg Hbg Hscale Hx1 Hx2 Hy1 Hy2 Hcell Hlast.
  assert (Hcov : covered (_led self) img offset x y) by (apply covered_iff; lia).
  destruct (render_total self img offset Hlayout Himg Hbg Hscale) as (buf & H & _).
  destruct (image_ok_spec img (x - offset.1) (y - offset.2) Himg) as (px & Hpx & Hpxok);
    [lia | lia |].
  destruct (layout_ok_spec _ Hlayout) as (_ & _ & Hg & Hcells).
  destruct (Hcells x y Hx1 Hy1) as (p0 & Hp0 & Hprange).
  assert (p0 = p) as -> by congruence.
  destruct (gamma3_Ok (gamma (_led self)) (pixel_color self px) Hg) as [v Hv];
    [by apply pixel_color_ok|].
  exists buf, px, v. repeat split; try assumption.
  assert (Hkeep : forall x' y' s1 s2,
    x' ∈ range offset.1 (extent (width (_led self)) offset.1 (im_size img).1 + offset.1) ->
    y' ∈ range offset.2 (extent (height (_led self)) offset.2 (im_size img).2 + offset.2) ->
    x < x' \/ (x = x' /\ y < y') ->
    pixel_at s1 p = Some v ->
    draw self img offset.1 offset.2 (gamma (_led self)) x' y' s1 = Ok s2 ->
    pixel_at s2 p = Some v).
  { intros x' y' s1 s2 Hx' Hy' Hlater HJ Hd.
    destruct (draw_effect self img offset Hlayout x' y' s1 s2 Hx' Hy' Hd)
      as [_ [[_ ->]|[Hcov' (q & px' & v' & Hq & Hqr & _ & _ & _ & ->)]]]; [exact HJ|].
    rewrite pixel_at_paint_ne; [exact HJ | lia | lia |].
    intros ->. specialize (Hlast x' y' Hcov' Hq). lia. }
  unfold covered in Hcov.
  unfold _getBufferFromImage in H. bind_inv_as H buf0 Hbuf0. bind_inv_as H out Hout.
  injection H as <-. revert Hout.
  rewrite (range_split offset.1 _ x) by lia.
  apply (for_each_last (fun b => pixel_at b p = Some v)).
  - intros s1 s2. rewrite (range_split offset.2 _ y) by lia.
    apply (for_each_last (fun b => pixel_at b p = Some v)).
    + intros t1 t2 Hd.
      destruct (draw_effect self img offset Hlayout x y t1 t2) as
        [_ [[Hn _]|[_ (q & px' & v' & Hq & _ & Hpx' & Hv' & Hlen & ->)]]];
        [apply elem_of_range; lia | apply elem_of_range; lia | exact Hd
        | contradiction Hn; unfold covered; lia |].
      assert (q = p) as -> by congruence. assert (px' = px) as -> by congruence.
      assert (v' = v) as -> by congruence. apply pixel_at_paint; lia.
    + intros y' t1 t2 Hy' HJ Hd. apply (Hkeep x y' t1 t2); try assumption.
      * apply elem_of_range; lia.
      * apply elem_of_range. apply elem_of_range in Hy'. lia.
      * apply elem_of_range in Hy'. lia.
  - intros x' s1 s2 Hx' HJ.
    apply (for_each_invariant (fun b => pixel_at b p = Some v)); [exact HJ|].
    intros y' t1 t2 Hy' Ht1 Hd. apply (Hkeep x' y' t1 t2); try assumption.
    + apply elem_of_range. apply elem_of_range in Hx'. lia.
    + apply elem_of_range in Hx'. lia.
Qed.

(** X4.  On well-formed inputs, at any offset, the physical pixel of a
    coordinate of the grid under the placed image shows the sample at that
    coordinate less the offset: premultiplied by its alpha, or replaced by
    the background colour when its alpha is 0, scaled when the brightness
    is not 255, and passed through the gamma table.  Where the map sends
    several such coordinates to one physical pixel, this holds for the one
    the loops reach last, columns left to right and each column top to
    bottom. *)
Theorem pixel_shows_last_sample_drawn (self : ImageAnim) (img : Image)
    (offset : Z * Z) (x y p : Z) :
  layout_ok (_led self) = true -> image_ok img = true ->
  color_ok (_bgcolor self) = true ->
  (_bright self <> 255 -> scale_ok (_bright self)) ->
  0 <= x < width (_led self) -> offset.1 <= x < offset.1 + (im_size img).1 ->
  0 <= y < height (_led self) -> offset.2 <= y < offset.2 + (im_size img).2 ->
  cell (_led self) x y = Ok p ->
  (forall x' y', covered (_led self) img offset x' y' ->
     cell (_led self) x' y' = Ok p -> x' < x \/ (x' = x /\ y' <= y)) ->
  exists buf px v,
    _getBufferFromImage self img offset = Ok (im_info_duration img, buf) /\
    getpixel img (x - offset.1, y - offset.2) = Ok px /\
    gamma3 (gamma (_led self)) (pixel_color self px) = Ok v /\
    pixel_at buf p = Some v.
Proof. apply render_last_writer. Qed.

(** ** Playback over many cycles *)

Lemma step_settings (self s : ImageAnim) :
  step self = Ok s ->
  _images s = _images self /\ _count s = _count self /\
  _bright s = _bright self /\ _bgcolor s = _bgcolor self /\
  _offset s = _offset self /\
  bufByteCount (_led s) = bufByteCount (_led self) /\
  (animComplete self = true -> animComplete s = true).
Proof.
  unfold step. intros H. bind_inv_as H fr Hfr. bind_inv_as H fr' Hfr'.
  injection H as <-. cbn. case_bool_decide; cbn; auto 10.
Qed.

(** X5.  From the first frame, the cursor after [n] calls of [step] is
    [n] modulo the number of frames, so call [n + 1] hands over frame
    [n mod len]: the sequence loops for ever.  The completion flag is up
    after [n] calls exactly when it was up before or [n] has reached the
    number of frames. *)
Theorem step_walks_frames_modulo (self : ImageAnim) (n : nat) :
  playable self -> _curImage self = 0 ->
  exists s s',
    steps n self = Ok s /\
    _curImage s = Z.of_nat n mod Z.of_nat (length (_images self)) /\
    animComplete s =
      animComplete self || bool_decide (length (_images self) <= n)%nat /\
    step s = Ok s' /\
    _images self !! Z.to_nat (Z.of_nat n mod Z.of_nat (length (_images self)))
      = Some (shown s').
Proof.
  intros Hp H0. pose proof Hp as [Hcount Hrange]. rewrite <- Hcount.
  assert (Hn : exists s, steps n self = Ok s /\
            _curImage s = Z.of_nat n mod _count self /\
            animComplete s =
              animComplete self || bool_decide (length (_images self) <= n)%nat /\
            _images s = _images self /\ _count s = _count self).
  { induction n as [|n IH].
    - exists self. repeat split; [| by rewrite bool_decide_eq_false_2, orb_false_r by lia].
      rewrite H0. symmetry. apply Z.mod_0_l. lia.
    - destruct IH as (s & Hs & Hcur & Hflag & Him & Hc).
      pose proof (Z.mod_pos_bound (Z.of_nat n) (_count self) ltac:(lia)) as Hb.
      assert (Hps : playable s) by (unfold playable; rewrite Him, Hc, Hcur; lia).
      destruct (step_playable s Hps) as (s' & Hs' & _ & Him' & Hc' & Hnext).
      exists s'. rewrite steps_S, Hs. cbn. split; [exact Hs'|].
      rewrite Hc, Hcur in Hnext.
      pose proof (Z.div_mod (Z.of_nat n) (_count self) ltac:(lia)) as Hdm.
      pose proof (Z.mod_le (Z.of_nat n) (_count self) ltac:(lia) ltac:(lia)) as Hle.
      split; [|split; [|split; congruence]].
      + case_bool_decide as Hwrap; destruct Hnext as [-> _].
        * apply (Z.mod_unique _ _ (Z.of_nat n / _count self + 1)); lia.
        * apply (Z.mod_unique _ _ (Z.of_nat n / _count self)); lia.
      + case_bool_decide as Hwrap; destruct Hnext as [_ ->].
        * rewrite (bool_decide_eq_true_2 (length (_images self) <= S n)%nat) by lia.
          by rewrite orb_true_r.
        * rewrite Hflag. f_equal. apply bool_decide_ext.
          destruct (decide (length (_images self) <= n)%nat) as [Hge|Hlt]; [lia|].
          rewrite Z.mod_small in Hwrap by lia. lia. }
  destruct Hn as (s & Hs & Hcur & Hflag & Him & Hc).
  pose proof (Z.mod_pos_bound (Z.of_nat n) (_count self) ltac:(lia)) as Hb.
  assert (Hps : playable s) by (unfold playable; rewrite Him, Hc, Hcur; lia).
  destruct (step_playable s Hps) as (s' & Hs' & Hshown & _).
  exists s, s'. rewrite Him, Hcur in Hshown. auto.
Qed.

(** X6.  Calls of [step] and [preRun], in any order and number, change the
    cursor, the completion flag, the delay and the displayed buffer only:
    the frames, their count, the brightness, the background colour and the
    offset stay as they are, and a completion flag that is up stays up. *)
Theorem calls_keep_frames_and_raised_flag (self : ImageAnim) (calls : list call) :
  playable self ->
  exists s, for_each calls run_call self = Ok s /\
    _images s = _images self /\ _count s = _count self /\
    _bright s = _bright self /\ _bgcolor s = _bgcolor self /\
    _offset s = _offset self /\
    (animComplete self = true -> animComplete s = true).
Proof.
  intros Hp.
  destruct (for_each_total
    (fun s => playable s /\ _images s = _images self /\ _count s = _count self /\
              _bright s = _bright self /\ _bgcolor s = _bgcolor self /\
              _offset s = _offset self /\
              (animComplete self = true -> animComplete s = true))
    calls run_call self) as (s & Hs & _ & Hkeep);
    [split; [exact Hp|]; repeat split; auto| |eauto].
  intros [|] s1 _ (Hp1 & Him & Hc & Hb & Hbg & Ho & Hf); cbn.
  - destruct (step_playable s1 Hp1) as (s2 & Hs2 & _).
    exists s2. split; [exact Hs2|]. split; [by eapply step_keeps_playable|].
    apply step_settings in Hs2 as (? & ? & ? & ? & ? & _ & ?).
    repeat split; try congruence. auto.
  - eexists. split; [reflexivity|]. split; [by apply preRun_playable|].
    repeat split; assumption.
Qed.

(** X7.  On a constructed animation, after calls of [step] and [preRun]
    in any order, a call of [step] puts on the display one of the frames
    the constructor built, with its delay: a buffer of exactly
    [bufByteCount] bytes. *)
Theorem step_hands_over_a_built_frame (led : LEDMatrix) (src : Source)
    (offset : Z * Z) (bgcolor : color) (brightness : Z) (a : ImageAnim)
    (calls : list call) :
  __init__ led src offset bgcolor brightness = Ok a ->
  exists s s', for_each calls run_call a = Ok s /\ step s = Ok s' /\
    (_internalDelay s', _buffer (_led s')) ∈ _images a /\
    length (_buffer (_led s')) = Z.to_nat (bufByteCount led) /\
    bufByteCount (_led s') = bufByteCount led.
Proof.
  intros Hinit. pose proof (init_playable _ _ _ _ _ _ Hinit) as Hp.
  pose proof (init_frames_sized _ _ _ _ _ _ Hinit) as Hsized.
  apply init_inv in Hinit as (Hled & _).
  destruct (calls_playable calls a Hp) as (s & Hs & Hps & Him).
  destruct (step_playable s Hps) as (s' & Hs' & Hshown & _).
  exists s, s'. split; [exact Hs|]. split; [exact Hs'|].
  rewrite Him in Hshown. unfold shown in Hshown.
  assert (Hin : (_internalDelay s', _buffer (_led s')) ∈ _images a)
    by (eapply list_elem_of_lookup_2, Hshown).
  split; [exact Hin|]. split.
  - eapply Forall2_Forall_r in Hsized; [|apply Forall_forall; intros ? _ ? Hx; exact (proj2 Hx)].
    rewrite Forall_forall in Hsized. exact (Hsized _ Hin).
  - apply step_settings in Hs' as (_ & _ & _ & _ & _ & Hbc & _).
    rewrite Hbc, <- Hled. clear - Hs.
    revert Hs. apply (for_each_invariant
      (fun t => bufByteCount (_led t) = bufByteCount (_led a))); [reflexivity|].
    intros [|] s1 s2 _ H1 Hrun; cbn in Hrun.
    + apply step_settings in Hrun as (_ & _ & _ & _ & _ & Hbc & _). congruence.
    + injection Hrun as <-. exact H1.
Qed.

(** ** Construction: centring, success and failure *)

(** X8.  The corner a [.gif] gets from the offset [(0, 0)] puts a first
    frame that fits the layout on an axis wholly inside the layout on that
    axis, with the margin before it equal to the margin after it or one
    less; a first frame that fills or exceeds the layout on an axis starts
    at 0 on that axis. *)
Theorem gif_centred_within_layout (led : LEDMatrix) (img : Image)
    (later : list Image) (bgcolor : color) (brightness : Z) (a : ImageAnim) :
  __init__ led (GifFile img later) (0, 0) bgcolor brightness = Ok a ->
  ((im_size img).1 <= width led ->
     0 <= (_offset a).1 /\
     (_offset a).1 + (im_size img).1 <= width led /\
     (_offset a).1 <= width led - ((_offset a).1 + (im_size img).1)
                   <= (_offset a).1 + 1) /\
  ((im_size img).2 <= height led ->
     0 <= (_offset a).2 /\
     (_offset a).2 + (im_size img).2 <= height led /\
     (_offset a).2 <= height led - ((_offset a).2 + (im_size img).2)
                   <= (_offset a).2 + 1) /\
  (width led <= (im_size img).1 -> (_offset a).1 = 0) /\
  (height led <= (im_size img).2 -> (_offset a).2 = 0).
Proof.
  intros H. apply init_inv in H as (_ & _ & _ & Hoff & _).
  cbn in Hoff. rewrite bool_decide_eq_true_2 in Hoff by reflexivity.
  unfold gif_offset in Hoff. rewrite Hoff. cbn.
  pose proof (Z.div_mod (width led - (im_size img).1) 2 ltac:(lia)).
  pose proof (Z.mod_pos_bound (width led - (im_size img).1) 2 ltac:(lia)).
  pose proof (Z.div_mod (height led - (im_size img).2) 2 ltac:(lia)).
  pose proof (Z.mod_pos_bound (height led - (im_size img).2) 2 ltac:(lia)).
  repeat case_bool_decide; lia.
Qed.

(** The two loops of the constructor cannot fail while the object keeps a
    well-formed layout and background and an offset other than the one
    that makes the folder loop read the size of a path. *)
Section Loops.

Variables (led : LEDMatrix) (bright : Z) (bg : color).
Hypothesis Hlayout : layout_ok led = true.
Hypothesis Hbg : color_ok bg = true.
Hypothesis Hscale : bright <> 255 -> scale_ok bright.

Local Abbreviation ready s :=
  (_led s = led /\ _bright s = bright /\ _bgcolor s = bg).

Lemma gif_append_total (img : Image) (s : ImageAnim) :
  image_ok img = true -> ready s ->
  exists s', gif_append img s = Ok s' /\ ready s' /\ _offset s' = _offset s.
Proof.
  intros Himg (Hl & Hb & Hc). unfold gif_append.
  destruct (render_total s img (_offset s)) as (buf & -> & _);
    rewrite ?Hl, ?Hb, ?Hc; try assumption.
  rewrite bind_Ok_l. eexists. split; [reflexivity|]. cbn. auto.
Qed.

Lemma bmp_append_total (img : BmpFile) (s : ImageAnim) :
  image_ok (bmp_image img) = true -> ready s -> _offset s <> (0, 0) ->
  exists s', bmp_append img s = Ok s' /\ ready s' /\ _offset s' = _offset s.
Proof.
  intros Himg (Hl & Hb & Hc) Hoff. unfold bmp_append, _getBufferFromPath.
  rewrite bool_decide_eq_false_2 by assumption. rewrite bind_Ok_l.
  destruct (render_total s (bmp_image img) (_offset s)) as (buf & -> & _);
    rewrite ?Hl, ?Hb, ?Hc; try assumption.
  rewrite bind_Ok_l. eexists. split; [reflexivity|]. cbn. auto.
Qed.

End Loops.

(** X9.  A [.gif] whose frames are well formed never makes the constructor
    fail on a well-formed layout, whatever the offset, the sizes of the
    frames and the brightness, provided the background colour holds bytes
    and scaling keeps bytes at the brightness the animation keeps. *)
Theorem gif_construction_succeeds (led : LEDMatrix) (img : Image)
    (later : list Image) (offset : Z * Z) (bgcolor : color) (brightness : Z) :
  layout_ok led = true ->
  Forall (fun i => image_ok i = true) (img :: later) ->
  color_ok bgcolor = true ->
  scale_ok (effective_brightness led brightness) ->
  exists a, __init__ led (GifFile img later) offset bgcolor brightness = Ok a /\
    length (_images a) = S (length later).
Proof.
  intros Hlayout Himgs Hbg Hscale. unfold __init__.
  set (s0 := if bool_decide (_ = (0, 0)) then _ else _).
  destruct (for_each_total
    (fun s => (_led s = led /\ _bright s = effective_brightness led brightness /\
               _bgcolor s = color_scale bgcolor (effective_brightness led brightness)) /\
              _offset s = _offset s0)
    (img :: later) gif_append s0) as (s & Hs & _).
  - subst s0. case_bool_decide; cbn; auto.
  - intros i s1 Hi [Hready Hoff]. rewrite Forall_forall in Himgs.
    destruct (gif_append_total led (effective_brightness led brightness)
                (color_scale bgcolor (effective_brightness led brightness))
                Hlayout (Hscale _ Hbg) (fun _ => Hscale) i s1 (Himgs i Hi) Hready)
      as (s2 & Hs2 & Hready2 & Hoff2).
    exists s2. split; [exact Hs2|]. split; [exact Hready2 | congruence].
  - rewrite Hs, bind_Ok_l. eexists. split; [reflexivity|].
    apply gif_loop in Hs as (frs & Hfrs & ->). cbn.
    apply Forall2_length in Hfrs. cbn in Hfrs. subst s0.
    case_bool_decide; cbn; lia.
Qed.

(** X10.  On well-formed inputs the constructor given a folder of still
    images fails in two cases only: with [ValueError] when the folder
    holds no image, and with [AttributeError] when it holds one and the
    offset is [(0, 0)].  With any other offset it succeeds and places the
    frames at that offset, without centring. *)
Theorem folder_construction_cases (led : LEDMatrix) (imageList : list BmpFile)
    (offset : Z * Z) (bgcolor : color) (brightness : Z) :
  layout_ok led = true ->
  Forall (fun f => image_ok (bmp_image f) = true) imageList ->
  color_ok bgcolor = true ->
  scale_ok (effective_brightness led brightness) ->
  match __init__ led (BmpFolder imageList) offset bgcolor brightness with
  | Ok a => imageList <> [] /\ offset <> (0, 0) /\ _offset a = offset /\
            length (_images a) = length imageList
  | Raise e => (imageList = [] /\ e = ValueError) \/
               (imageList <> [] /\ offset = (0, 0) /\ e = AttributeError)
  end.
Proof.
  intros Hlayout Himgs Hbg Hscale.
  destruct imageList as [|f l]; [left; by split|].
  destruct (decide (offset = (0, 0))) as [->|Hne].
  { replace (__init__ led (BmpFolder (f :: l)) (0, 0) bgcolor brightness)
      with (@Raise ImageAnim AttributeError).
    - right. by repeat split.
    - unfold __init__. cbn. by rewrite bool_decide_eq_false_2 by lia. }
  unfold __init__. cbn [frames]. 
  set (s0 := set_count _ (Z.of_nat (length (f :: l)))).
  rewrite (bool_decide_eq_false_2 (_count s0 = 0)) by (subst s0; cbn; lia).
  destruct (for_each_total
    (fun s => (_led s = led /\ _bright s = effective_brightness led brightness /\
               _bgcolor s = color_scale bgcolor (effective_brightness led brightness)) /\
              _offset s = offset)
    (f :: l) bmp_append s0) as (s & Hs & _ & Hoff).
  - subst s0. cbn. auto.
  - intros i s1 Hi [Hready Hoff]. rewrite Forall_forall in Himgs.
    destruct (bmp_append_total led (effective_brightness led brightness)
                (color_scale bgcolor (effective_brightness led brightness))
                Hlayout (Hscale _ Hbg) (fun _ => Hscale) i s1 (Himgs i Hi) Hready)
      as (s2 & Hs2 & Hready2 & Hoff2); [congruence|].
    exists s2. split; [exact Hs2|]. split; [exact Hready2 | congruence].
  - rewrite Hs, bind_Ok_l. split; [discriminate|]. split; [exact Hne|].
    split; [exact Hoff|]. cbn.
    apply bmp_loop in Hs as (_ & frs & Hfrs & ->). cbn.
    apply Forall2_length in Hfrs. rewrite length_fmap in Hfrs. subst s0.
    cbn in *. lia.
Qed.

(** X11.  At brightness 255 the pixel of a transparent sample cannot be
    told from the background around the image: when the background colour
    kept by the object is not [(0, 0, 0)], the pixel of a transparent
    sample (the last drawn on its physical pixel) holds the same bytes as
    the background fill. *)
Theorem transparent_sample_shows_fill_at_full_brightness (self : ImageAnim)
    (img : Image) (offset : Z * Z) (x y p r g b : Z) :
  layout_ok (_led self) = true -> image_ok img = true ->
  color_ok (_bgcolor self) = true ->
  _bright self = 255 -> _bgcolor self <> (0, 0, 0) ->
  0 <= x < width (_led self) -> offset.1 <= x < offset.1 + (im_size img).1 ->
  0 <= y < height (_led self) -> offset.2 <= y < offset.2 + (im_size img).2 ->
  cell (_led self) x y = Ok p ->
  (forall x' y', covered (_led self) img offset x' y' ->
     cell (_led self) x' y' = Ok p -> x' < x \/ (x' = x /\ y' <= y)) ->
  getpixel img (x - offset.1, y - offset.2) = Ok (r, g, b, 0) ->
  exists buf v,
    _getBufferFromImage self img offset = Ok (im_info_duration img, buf) /\
    fill self = Ok v /\ pixel_at buf p = Some v.
Proof.
  intros Hlayout Himg Hbg Hbright Hne Hx1 Hx2 Hy1 Hy2 Hcell Hlast Hpx.
  destruct (render_last_writer self img offset x y p Hlayout Himg Hbg
              ltac:(intros; contradiction) Hx1 Hx2 Hy1 Hy2 Hcell Hlast)
    as (buf & px & v & H & Hpx' & Hv & Hat).
  assert (px = (r, g, b, 0)) as -> by congruence.
  exists buf, v. split; [exact H|]. split; [|exact Hat].
  unfold fill. rewrite bool_decide_eq_true_2 by assumption.
  rewrite pixel_color_transparent in Hv.
  by rewrite bool_decide_eq_false_2 in Hv by tauto.
Qed.

(** X12.  With brightness 255, a sample that is not transparent takes a
    colour that does not depend on the background: each channel [c] of a
    sample of alpha [a] becomes [(c * a) >> 8], which is at most [c - 1]
    for a channel that is not 0, and does not decrease when alpha grows. *)
Theorem translucent_sample_is_darkened (self : ImageAnim) (r g b a a' : Z) :
  _bright self = 255 ->
  0 <= r <= 255 -> 0 <= g <= 255 -> 0 <= b <= 255 ->
  0 < a <= a' -> a' <= 255 ->
  exists r1 g1 b1 r2 g2 b2,
    pixel_color self (r, g, b, a) = (r1, g1, b1) /\
    pixel_color self (r, g, b, a') = (r2, g2, b2) /\
    (0 <= r1 <= Z.max 0 (r - 1) /\ 0 <= g1 <= Z.max 0 (g - 1) /\
     0 <= b1 <= Z.max 0 (b - 1)) /\
    (r1 <= r2 /\ g1 <= g2 /\ b1 <= b2).
Proof.
  intros Hbright Hr Hg Hb Ha Ha'.
  assert (Hshift : forall c al, 0 <= c <= 255 -> 0 < al <= 255 ->
            0 <= Z.shiftr (c * al) 8 <= Z.max 0 (c - 1)).
  { intros c al Hc Hal. rewrite Z.shiftr_div_pow2 by lia. change (2 ^ 8) with 256.
    split; [apply Z.div_pos; nia|].
    destruct (decide (c = 0)) as [->|Hc0]; [rewrite Z.mul_0_l, Zdiv_0_l; lia|].
    rewrite Z.max_r by lia.
    assert (c * al / 256 < c); [|lia]. apply Z.div_lt_upper_bound; nia. }
  assert (Hmono : forall c, 0 <= c <= 255 -> Z.shiftr (c * a) 8 <= Z.shiftr (c * a') 8).
  { intros c Hc. rewrite !Z.shiftr_div_pow2 by lia. apply Z.div_le_mono; nia. }
  unfold pixel_color.
  rewrite (bool_decide_eq_false_2 (a = 0)), (bool_decide_eq_false_2 (a' = 0)) by lia.
  rewrite bool_decide_eq_false_2 by tauto.
  eexists _, _, _, _, _, _. split; [reflexivity|]. split; [reflexivity|].
  split; [repeat split; apply Hshift; lia | repeat split; by apply Hmono].
Qed.

(** ** The folder of clips *)

Lemma folder_loop (led : LEDMatrix) (Off : color) (cycles : Z)
    (found : list (Image * list Image)) (f0 f : ImageAnimFolder) :
  for_each found (folder_append led Off cycles) f0 = Ok f ->
  exists anims,
    Forall2 (fun g anim => __init__ led (GifFile g.1 g.2) (0, 0) Off 255 = Ok anim)
            found anims /\
    gifs f = gifs f0 ++ anims /\
    queued f = queued f0 ++ ((fun anim => (anim, true, cycles)) <$> anims).
Proof.
  revert f0; induction found as [|g found IH]; intros f0 H; cbn in H.
  - injection H as <-. exists []. by rewrite !app_nil_r.
  - bind_inv_as H f1 Hf1. unfold folder_append in Hf1.
    bind_inv_as Hf1 anim Hanim. injection Hf1 as <-.
    destruct (IH _ H) as (anims & Hanims & Hg & Hq). cbn in Hg, Hq.
    exists (anim :: anims). split; [by constructor|].
    rewrite Hg, Hq, <- !app_assoc. by split.
Qed.

(** X13.  A folder of clips that is built holds one animation for each
    [.gif] found, in the order found, and queues each to play until
    complete for the given number of cycles.  Every clip keeps the master
    brightness of the layout and is centred as a [.gif] given no offset,
    with its cursor on the first frame. *)
Theorem folder_clips_keep_master_brightness (led : LEDMatrix) (Off : color)
    (found : list (Image * list Image)) (cycles : Z) (f : ImageAnimFolder) :
  ImageAnimFolder_init led Off found cycles = Ok f ->
  queued f = (fun anim => (anim, true, cycles)) <$> gifs f /\
  Forall2 (fun g anim =>
             _bright anim = masterBrightness led /\
             _bgcolor anim = color_scale Off (masterBrightness led) /\
             _offset anim = gif_offset led g.1 /\
             length (_images anim) = S (length g.2) /\
             _curImage anim = 0)
          found (gifs f).
Proof.
  intros H. apply folder_loop in H as (anims & Hanims & -> & ->). cbn.
  split; [reflexivity|].
  eapply Forall2_impl; [exact Hanims|]. intros g anim Hinit.
  apply init_inv in Hinit as (_ & Hb & Hbg & Hoff & Hfr & _ & _ & Hcur & _).
  assert (Hbm : _bright anim = masterBrightness led).
  { rewrite Hb. unfold effective_brightness. case_bool_decide; [reflexivity|].
    destruct (decide (masterBrightness led = 255)); [congruence | tauto]. }
  split; [exact Hbm|]. split; [by rewrite Hbg, Hbm|].
  split; [rewrite Hoff; cbn; by rewrite bool_decide_eq_true_2|].
  split; [|exact Hcur].
  apply Forall2_length in Hfr. cbn in Hfr. lia.
Qed.

End ImageAnim.

(** * The properties on sample inputs *)

Lemma color_scale_floor_ok (level : Z) :
  0 <= level <= 255 -> scale_ok color_scale_floor level.
Proof.
  intros Hl [[r g] b]. unfold color_ok, color_scale_floor.
  rewrite !andb_true_iff, !chan_ok_spec. intros [[Hr Hg] Hb].
  repeat split; try (apply Z.div_pos; nia); apply Z.div_le_upper_bound; nia.
Qed.

(** C1, where the code departs from it.  A strip of two LEDs, identity
    gamma; a [.gif] of one transparent sample; background white,
    brightness 128.  The constructor keeps the background scaled once, and
    the uncovered LED shows it; the LED under the transparent sample shows
    the background scaled a second time.  So it is with either rounding. *)
Theorem C1_transparent_sample_scaled_twice :
  (exists a,
     __init__ color_scale_floor (strip 2 identity_gamma 255) (GifFile clear_dot [])
              (0, 0) (255, 255, 255) 128 = Ok a /\
     _bgcolor a = (128, 128, 128) /\
     _images a = [(Some 40, [64; 64; 64; 128; 128; 128])]) /\
  (exists a,
     __init__ color_scale_shift (strip 2 identity_gamma 255) (GifFile clear_dot [])
              (0, 0) (255, 255, 255) 128 = Ok a /\
     _bgcolor a = (127, 127, 127) /\
     _images a = [(Some 40, [63; 63; 63; 127; 127; 127])]).
Proof.
  split; (eexists; split; [vm_compute; reflexivity | split; reflexivity]).
Qed.

(** C2 as stated fails: on one LED with the identity gamma, an opaque white
    sample at brightness 255 comes out as 254, not as the gamma of 255. *)
Lemma C2_opaque_white_comes_out_darker :
  _getBufferFromImage color_scale_floor
    (compositor (strip 1 identity_gamma 255) 255 (0, 0, 0)) white_dot (0, 0)
  = Ok (Some 40, [254; 254; 254]) /\
  gamma3 identity_gamma (255, 255, 255) = Ok (255, 255, 255) /\
  pixel_at [254; 254; 254] 0 <> Some (255, 255, 255).
Proof.
  split; [vm_compute; reflexivity|]. split; [vm_compute; reflexivity|].
  vm_compute. discriminate.
Qed.

Lemma C2_opaque_frame_premultiplied_witness :
  layout_ok (_led (compositor (serpentine identity_gamma 255) 255 (0, 0, 0))) = true /\
  image_ok four_dots = true /\
  color_ok (_bgcolor (compositor (serpentine identity_gamma 255) 255 (0, 0, 0))) = true /\
  _bright (compositor (serpentine identity_gamma 255) 255 (0, 0, 0)) = 255 /\
  im_size four_dots = (2, 2) /\
  exists buf,
    _getBufferFromImage color_scale_floor
      (compositor (serpentine identity_gamma 255) 255 (0, 0, 0)) four_dots (0, 0)
    = Ok (None, buf) /\
    forall x y p r g b,
      0 <= x < 2 -> 0 <= y < 2 ->
      getpixel four_dots (x, y) = Ok (r, g, b, 255) ->
      cell (serpentine identity_gamma 255) x y = Ok p ->
      (forall x' y', 0 <= x' < 2 -> 0 <= y' < 2 ->
         cell (serpentine identity_gamma 255) x' y' = Ok p -> x' = x /\ y' = y) ->
      exists v,
        gamma3 identity_gamma
          (Z.shiftr (r * 255) 8, Z.shiftr (g * 255) 8, Z.shiftr (b * 255) 8) = Ok v /\
        pixel_at buf p = Some v.
Proof.
  split; [reflexivity|]. split; [reflexivity|]. split; [reflexivity|].
  split; [reflexivity|]. split; [reflexivity|].
  apply (C2_opaque_frame_premultiplied color_scale_floor
           (compositor (serpentine identity_gamma 255) 255 (0, 0, 0)) four_dots);
    reflexivity.
Defined.

(** C3 as stated fails: with one frame, the second call of [step] after
    [preRun] hands over the first frame again with the completion flag up. *)
Lemma C3_call_after_the_cycle_has_flag_up :
  exists a s,
    __init__ color_scale_floor (strip 1 identity_gamma 255) (GifFile white_dot [])
             (0, 0) (0, 0, 0) 255 = Ok a /\
    length (_images a) = 1%nat /\
    steps 2 (preRun a) = Ok s /\
    _images a !! 0%nat = Some (shown s) /\
    animComplete s = true.
Proof.
  eexists. eexists. split; [vm_compute; reflexivity|]. split; [reflexivity|].
  split; [vm_compute; reflexivity|]. split; reflexivity.
Qed.

Lemma C3_cycle_raises_flag_and_keeps_it_witness :
  exists a,
    __init__ color_scale_floor (strip 2 identity_gamma 255)
             (GifFile white_dot [clear_dot]) (1, 0) (10, 20, 30) 128 = Ok a /\
    playable (preRun a) /\ _curImage (preRun a) = 0 /\
    animComplete (preRun a) = false /\
    (forall k : nat, (k < length (_images (preRun a)))%nat ->
       exists s, steps (S k) (preRun a) = Ok s /\
         _images (preRun a) !! k = Some (shown s) /\
         animComplete s = bool_decide (S k = length (_images (preRun a)))) /\
    (exists s, steps (S (length (_images (preRun a)))) (preRun a) = Ok s /\
       _images (preRun a) !! 0%nat = Some (shown s) /\ animComplete s = true).
Proof.
  eexists. split; [vm_compute; reflexivity|].
  split; [unfold playable; simpl; lia|]. split; [reflexivity|]. split; [reflexivity|].
  apply C3_cycle_raises_flag_and_keeps_it;
    [unfold playable; simpl; lia | reflexivity | reflexivity].
Defined.

(** C5 as stated fails: with a gamma table that lifts 0 to 1 and a black
    background, the LED beside the image holds 0, not the gamma of 0. *)
Lemma C5_black_background_gets_no_gamma :
  _getBufferFromImage color_scale_floor
    (compositor (strip 2 lifted_gamma 255) 255 (color_scale_floor (0, 0, 0) 255))
    white_dot (0, 0)
  = Ok (Some 40, [254; 254; 254; 0; 0; 0]) /\
  gamma3 lifted_gamma (color_scale_floor (0, 0, 0) 255) = Ok (1, 1, 1) /\
  pixel_at [254; 254; 254; 0; 0; 0] 1 <> Some (1, 1, 1).
Proof.
  split; [vm_compute; reflexivity|]. split; [vm_compute; reflexivity|].
  vm_compute. discriminate.
Qed.

Lemma C5_uncovered_pixels_hold_fill_witness :
  layout_ok (strip 3 identity_gamma 255) = true /\
  image_ok white_dot = true /\
  color_ok (color_scale_floor (10, 20, 30) 128) = true /\
  (128 <> 255 -> scale_ok color_scale_floor 128) /\
  exists buf v,
    _getBufferFromImage color_scale_floor
      (compositor (strip 3 identity_gamma 255) 128 (color_scale_floor (10, 20, 30) 128))
      white_dot (1, 0) = Ok (Some 40, buf) /\
    fill (compositor (strip 3 identity_gamma 255) 128
            (color_scale_floor (10, 20, 30) 128)) = Ok v /\
    (color_scale_floor (10, 20, 30) 128 <> (0, 0, 0) ->
       gamma3 identity_gamma (color_scale_floor (10, 20, 30) 128) = Ok v) /\
    (color_scale_floor (10, 20, 30) 128 = (0, 0, 0) -> v = (0, 0, 0)) /\
    forall i, 0 <= i < 3 ->
      (forall x y, covered (strip 3 identity_gamma 255) white_dot (1, 0) x y ->
                   cell (strip 3 identity_gamma 255) x y <> Ok i) ->
      pixel_at buf i = Some v.
Proof.
  split; [reflexivity|]. split; [reflexivity|]. split; [reflexivity|].
  split; [intros _; exact (color_scale_floor_ok 128 ltac:(lia))|].
  apply (C5_uncovered_pixels_hold_fill color_scale_floor
           (compositor (strip 3 identity_gamma 255) 128
                       (color_scale_floor (10, 20, 30) 128)) white_dot (1, 0));
    [reflexivity | reflexivity | reflexivity
    | intros _; exact (color_scale_floor_ok 128 ltac:(lia))].
Defined.

(** C6 as stated fails: after the one call of [step] that completes a
    sequence of one frame, [preRun] leaves the completion flag up. *)
Lemma C6_preRun_leaves_flag_up :
  exists a s,
    __init__ color_scale_floor (strip 1 identity_gamma 255) (GifFile white_dot [])
             (0, 0) (0, 0, 0) 255 = Ok a /\
    steps 1 a = Ok s /\
    _curImage (preRun s) = 0 /\ animComplete (preRun s) = true.
Proof.
  eexists. eexists. split; [vm_compute; reflexivity|].
  split; [vm_compute; reflexivity|]. split; reflexivity.
Qed.

Lemma C6_preRun_rewinds_cursor_only_witness :
  exists a,
    __init__ color_scale_floor (strip 2 identity_gamma 255)
             (GifFile white_dot [clear_dot]) (1, 0) (10, 20, 30) 128 = Ok a /\
    playable a /\
    exists s, steps 3 a = Ok s /\
      _curImage (preRun s) = 0 /\
      animComplete (preRun s) = animComplete s /\
      _images (preRun s) = _images a /\
      playable (preRun s).
Proof.
  eexists. split; [vm_compute; reflexivity|].
  split; [unfold playable; simpl; lia|].
  apply C6_preRun_rewinds_cursor_only. unfold playable; simpl; lia.
Defined.

Lemma C7_cursor_stays_in_range_witness :
  exists a,
    __init__ color_scale_floor (strip 2 identity_gamma 255)
             (GifFile white_dot [clear_dot]) (1, 0) (10, 20, 30) 128 = Ok a /\
    exists s, for_each [Step; PreRun; Step; Step; Step] run_call a = Ok s /\
      (1 <= length (_images s))%nat /\
      0 <= _curImage s < Z.of_nat (length (_images s)) /\
      exists s', step s = Ok s' /\
        0 <= _curImage s' < Z.of_nat (length (_images s')) /\
        (if bool_decide (_curImage s + 1 = Z.of_nat (length (_images s)))
         then _curImage s' = 0 /\ animComplete s' = true
         else _curImage s' = _curImage s + 1 /\ animComplete s' = animComplete s).
Proof.
  eexists. split; [vm_compute; reflexivity|].
  eapply (C7_cursor_stays_in_range color_scale_floor (strip 2 identity_gamma 255)
            (GifFile white_dot [clear_dot]) (1, 0) (10, 20, 30) 128).
  vm_compute; reflexivity.
Defined.

(** C8 as stated fails: a frame of width 0 is composited without any
    exception, into the background fill. *)
Lemma C8_frame_without_area_is_composited :
  im_size no_dots = (0, 3) /\
  _getBufferFromImage color_scale_floor
    (compositor (strip 1 identity_gamma 255) 255 (10, 20, 30)) no_dots (0, 0)
  = Ok (None, [10; 20; 30]).
Proof. split; [reflexivity | vm_compute; reflexivity]. Qed.

Lemma C8_compositor_returns_witness :
  layout_ok (serpentine identity_gamma 255) = true /\
  image_ok four_dots = true /\
  color_ok (color_scale_floor (10, 20, 30) 128) = true /\
  (128 <> 255 -> scale_ok color_scale_floor 128) /\
  exists buf,
    _getBufferFromImage color_scale_floor
      (compositor (serpentine identity_gamma 255) 128
                  (color_scale_floor (10, 20, 30) 128)) four_dots (-1, 1)
    = Ok (None, buf) /\
    length buf = 12%nat /\
    ((im_size four_dots).1 = 0 \/ (im_size four_dots).2 = 0 ->
     background (compositor (serpentine identity_gamma 255) 128
                            (color_scale_floor (10, 20, 30) 128)) = Ok buf).
Proof.
  split; [reflexivity|]. split; [reflexivity|]. split; [reflexivity|].
  split; [intros _; exact (color_scale_floor_ok 128 ltac:(lia))|].
  apply (C8_compositor_returns color_scale_floor
           (compositor (serpentine identity_gamma 255) 128
                       (color_scale_floor (10, 20, 30) 128)) four_dots (-1, 1));
    [reflexivity | reflexivity | reflexivity
    | intros _; exact (color_scale_floor_ok 128 ltac:(lia))].
Defined.

Lemma C9_brightness_kept_witness :
  exists a,
    __init__ color_scale_floor (strip 2 identity_gamma 100)
             (GifFile white_dot [clear_dot]) (1, 0) (10, 20, 30) 255 = Ok a /\
    (255 = 255 -> masterBrightness (strip 2 identity_gamma 100) <> 255 ->
       _bright a = masterBrightness (strip 2 identity_gamma 100)) /\
    (255 <> 255 -> _bright a = 255) /\
    _bgcolor a = color_scale_floor (10, 20, 30) (_bright a) /\
    Forall2 (fun img fr => _getBufferFromImage color_scale_floor a img (_offset a) = Ok fr)
            (frames (GifFile white_dot [clear_dot])) (_images a) /\
    (masterBrightness (strip 2 identity_gamma 100) <> 255 -> _bright a <> 255).
Proof.
  eexists. split; [vm_compute; reflexivity|].
  eapply (C9_brightness_kept color_scale_floor (strip 2 identity_gamma 100)
            (GifFile white_dot [clear_dot]) (1, 0) (10, 20, 30) 255).
  vm_compute; reflexivity.
Defined.

(** C10 as stated fails: on a strip of two LEDs a [.gif] of one sample,
    smaller than the strip, given the offset [(0, 0)], is placed at the
    top-left corner: the floor of half of 1 is 0. *)
Lemma C10_gif_one_short_lands_top_left :
  exists a,
    __init__ color_scale_floor (strip 2 identity_gamma 255) (GifFile white_dot [])
             (0, 0) (0, 0, 0) 255 = Ok a /\
    (im_size white_dot).1 < width (strip 2 identity_gamma 255) /\
    _offset a = (0, 0) /\
    _images a = [(Some 40, [254; 254; 254; 0; 0; 0])].
Proof.
  eexists. split; [vm_compute; reflexivity|]. split; [reflexivity|].
  split; reflexivity.
Qed.

Lemma C10_zero_offset_centres_gif_witness :
  exists a,
    __init__ color_scale_floor (strip 3 identity_gamma 255)
             (GifFile white_dot [clear_dot]) (0, 0) (0, 0, 0) 255 = Ok a /\
    ((0, 0) = (0, 0) ->
       ((im_size white_dot).1 < 3 -> (_offset a).1 = (3 - (im_size white_dot).1) / 2) /\
       ((im_size white_dot).2 < 1 -> (_offset a).2 = (1 - (im_size white_dot).2) / 2)) /\
    Forall2 (fun frame fr =>
               _getBufferFromImage color_scale_floor a frame (_offset a) = Ok fr)
            [white_dot; clear_dot] (_images a) /\
    (_offset a = (0, 0) ->
       (0, 0) = (0, 0) /\
       ((im_size white_dot).1 < 3 -> 3 - (im_size white_dot).1 = 1) /\
       ((im_size white_dot).2 < 1 -> 1 - (im_size white_dot).2 = 1)).
Proof.
  eexists. split; [vm_compute; reflexivity|].
  eapply (C10_zero_offset_centres_gif color_scale_floor (strip 3 identity_gamma 255)
            white_dot [clear_dot] (0, 0) (0, 0, 0) 255).
  vm_compute; reflexivity.
Defined.

(** * Further properties on sample inputs *)

Lemma for_each_ext {X S} (xs : list X) (f g : X -> S -> result S) (s : S) :
  (forall x t, f x t = g x t) -> for_each xs f s = for_each xs g s.
Proof.
  intros Hfg. revert s. induction xs as [|x xs IH]; intros s; [reflexivity|].
  cbn. rewrite Hfg. destruct (g x s); cbn; [apply IH | reflexivity].
Qed.

(** X14.  At brightness 255 the compositor never calls the scaling
    function: two scaling functions give the same result, failure
    included, on every image, offset and object. *)
Theorem full_brightness_never_scales (scale1 scale2 : color -> Z -> color)
    (self : ImageAnim) (img : Image) (offset : Z * Z) :
  _bright self = 255 ->
  _getBufferFromImage scale1 self img offset
  = _getBufferFromImage scale2 self img offset.
Proof.
  intros Hbright. unfold _getBufferFromImage.
  destruct (background self) as [buf0|e]; [|reflexivity].
  rewrite !bind_Ok_l. f_equal.
  apply for_each_ext. intros x s. apply for_each_ext. intros y t.
  unfold draw. case_bool_decide; [reflexivity|].
  destruct (cell (_led self) x y) as [p|e]; [|reflexivity].
  rewrite !bind_Ok_l.
  destruct (getpixel img (x - offset.1, y - offset.2)) as [[[[r g] b] a]|e];
    [|reflexivity].
  rewrite !bind_Ok_l. unfold pixel_color.
  by rewrite !(bool_decide_eq_false_2 (_bright self <> 255)) by tauto.
Qed.

Lemma full_brightness_never_scales_witness :
  _bright (compositor (serpentine identity_gamma 255) 255 (10, 20, 30)) = 255 /\
  _getBufferFromImage color_scale_floor
    (compositor (serpentine identity_gamma 255) 255 (10, 20, 30)) two_dots (0, 1)
  = _getBufferFromImage color_scale_shift
      (compositor (serpentine identity_gamma 255) 255 (10, 20, 30)) two_dots (0, 1).
Proof.
  split; [reflexivity|].
  apply (full_brightness_never_scales color_scale_floor color_scale_shift).
  reflexivity.
Defined.

Lemma frames_follow_source_witness :
  exists a,
    __init__ color_scale_floor (strip 2 identity_gamma 255)
             (GifFile white_dot [clear_dot; four_dots]) (1, 0) (10, 20, 30) 128 = Ok a /\
    _count a = Z.of_nat (length (frames (GifFile white_dot [clear_dot; four_dots]))) /\
    Forall2 (fun img fr =>
               fr.1 = im_info_duration img /\
               length fr.2 = Z.to_nat (bufByteCount (strip 2 identity_gamma 255)))
            (frames (GifFile white_dot [clear_dot; four_dots])) (_images a).
Proof.
  eexists. split; [vm_compute; reflexivity|].
  eapply (frames_follow_source color_scale_floor (strip 2 identity_gamma 255)
            (GifFile white_dot [clear_dot; four_dots]) (1, 0) (10, 20, 30) 128).
  vm_compute; reflexivity.
Defined.

Lemma frame_bytes_come_from_gamma_witness :
  exists a,
    __init__ color_scale_floor (strip 2 lifted_gamma 255)
             (GifFile white_dot [clear_dot]) (1, 0) (10, 20, 30) 128 = Ok a /\
    Forall (fun fr => Forall (fun v => v = 0 \/ v ∈ gamma (strip 2 lifted_gamma 255)) fr.2)
           (_images a) /\
    (Forall (fun v => 0 <= v <= 255) (gamma (strip 2 lifted_gamma 255)) ->
     Forall (fun fr => Forall (fun v => 0 <= v <= 255) fr.2) (_images a)).
Proof.
  eexists. split; [vm_compute; reflexivity|].
  eapply (frame_bytes_come_from_gamma color_scale_floor (strip 2 lifted_gamma 255)
            (GifFile white_dot [clear_dot]) (1, 0) (10, 20, 30) 128).
  vm_compute; reflexivity.
Defined.

Lemma image_off_layout_leaves_background_witness :
  layout_ok (strip 2 identity_gamma 255) = true /\
  color_ok (5, 6, 7) = true /\
  (Z.min 2 (2 + (im_size four_dots).1) <= Z.max 0 2 \/
   Z.min 1 (0 + (im_size four_dots).2) <= Z.max 0 0) /\
  exists buf,
    background (compositor (strip 2 identity_gamma 255) 128 (5, 6, 7)) = Ok buf /\
    _getBufferFromImage color_scale_floor
      (compositor (strip 2 identity_gamma 255) 128 (5, 6, 7)) four_dots (2, 0)
    = Ok (im_info_duration four_dots, buf).
Proof.
  split; [reflexivity|]. split; [reflexivity|]. split; [left; simpl; lia|].
  apply (image_off_layout_leaves_background color_scale_floor
           (compositor (strip 2 identity_gamma 255) 128 (5, 6, 7)) four_dots (2, 0));
    [reflexivity | reflexivity | left; simpl; lia].
Defined.

Lemma doubled_last_is_second (x' y' : Z) :
  covered (doubled identity_gamma 255) two_dots (0, 0) x' y' ->
  cell (doubled identity_gamma 255) x' y' = Ok 0 ->
  x' < 1 \/ (x' = 1 /\ y' <= 0).
Proof. intros Hc _. unfold covered, extent in Hc. simpl in Hc. lia. Qed.

Lemma pixel_shows_last_sample_drawn_witness :
  layout_ok (doubled identity_gamma 255) = true /\
  image_ok two_dots = true /\ color_ok (0, 0, 0) = true /\
  (128 <> 255 -> scale_ok color_scale_floor 128) /\
  0 <= 1 < 2 /\ 0 <= 1 < 0 + 2 /\ 0 <= 0 < 1 /\ 0 <= 0 < 0 + 1 /\
  cell (doubled identity_gamma 255) 1 0 = Ok 0 /\
  (forall x' y', covered (doubled identity_gamma 255) two_dots (0, 0) x' y' ->
     cell (doubled identity_gamma 255) x' y' = Ok 0 -> x' < 1 \/ (x' = 1 /\ y' <= 0)) /\
  exists buf px v,
    _getBufferFromImage color_scale_floor
      (compositor (doubled identity_gamma 255) 128 (0, 0, 0)) two_dots (0, 0)
    = Ok (im_info_duration two_dots, buf) /\
    getpixel two_dots (1 - 0, 0 - 0) = Ok px /\
    gamma3 identity_gamma
      (pixel_color color_scale_floor
         (compositor (doubled identity_gamma 255) 128 (0, 0, 0)) px) = Ok v /\
    pixel_at buf 0 = Some v.
Proof.
  split; [reflexivity|]. split; [reflexivity|]. split; [reflexivity|].
  split; [intros _; exact (color_scale_floor_ok 128 ltac:(lia))|].
  split; [lia|]. split; [lia|]. split; [lia|]. split; [lia|].
  split; [reflexivity|]. split; [exact doubled_last_is_second|].
  apply (pixel_shows_last_sample_drawn color_scale_floor
           (compositor (doubled identity_gamma 255) 128 (0, 0, 0)) two_dots (0, 0) 1 0 0);
    [reflexivity | reflexivity | reflexivity
    | intros _; exact (color_scale_floor_ok 128 ltac:(lia))
    | simpl; lia | simpl; lia | simpl; lia | simpl; lia | reflexivity
    | exact doubled_last_is_second].
Defined.

Lemma step_walks_frames_modulo_witness :
  exists a,
    __init__ color_scale_floor (strip 2 identity_gamma 255)
             (GifFile white_dot [clear_dot; four_dots]) (1, 0) (10, 20, 30) 128 = Ok a /\
    playable (preRun a) /\ _curImage (preRun a) = 0 /\
    exists s s',
      steps 7 (preRun a) = Ok s /\
      _curImage s = Z.of_nat 7 mod Z.of_nat (length (_images (preRun a))) /\
      animComplete s =
        animComplete (preRun a) || bool_decide (length (_images (preRun a)) <= 7)%nat /\
      step s = Ok s' /\
      _images (preRun a) !! Z.to_nat (Z.of_nat 7 mod Z.of_nat (length (_images (preRun a))))
        = Some (shown s').
Proof.
  eexists. split; [vm_compute; reflexivity|].
  split; [unfold playable; simpl; lia|]. split; [reflexivity|].
  apply step_walks_frames_modulo; [unfold playable; simpl; lia | reflexivity].
Defined.

Lemma calls_keep_frames_and_raised_flag_witness :
  exists a,
    __init__ color_scale_floor (strip 2 identity_gamma 255)
             (GifFile white_dot [clear_dot]) (1, 0) (10, 20, 30) 128 = Ok a /\
    playable a /\
    exists s, for_each [Step; Step; PreRun; Step] run_call a = Ok s /\
      _images s = _images a /\ _count s = _count a /\
      _bright s = _bright a /\ _bgcolor s = _bgcolor a /\
      _offset s = _offset a /\
      (animComplete a = true -> animComplete s = true).
Proof.
  eexists. split; [vm_compute; reflexivity|].
  split; [unfold playable; simpl; lia|].
  apply calls_keep_frames_and_raised_flag. unfold playable; simpl; lia.
Defined.

Lemma step_hands_over_a_built_frame_witness :
  exists a,
    __init__ color_scale_floor (strip 2 identity_gamma 255)
             (GifFile white_dot [clear_dot]) (1, 0) (10, 20, 30) 128 = Ok a /\
    exists s s', for_each [Step; PreRun; Step; Step] run_call a = Ok s /\
      step s = Ok s' /\
      (_internalDelay s', _buffer (_led s')) ∈ _images a /\
      length (_buffer (_led s')) = Z.to_nat (bufByteCount (strip 2 identity_gamma 255)) /\
      bufByteCount (_led s') = bufByteCount (strip 2 identity_gamma 255).
Proof.
  eexists. split; [vm_compute; reflexivity|].
  eapply (step_hands_over_a_built_frame color_scale_floor (strip 2 identity_gamma 255)
            (GifFile white_dot [clear_dot]) (1, 0) (10, 20, 30) 128).
  vm_compute; reflexivity.
Defined.

Lemma gif_centred_within_layout_witness :
  exists a,
    __init__ color_scale_floor (strip 4 identity_gamma 255)
             (GifFile white_dot [clear_dot]) (0, 0) (10, 20, 30) 128 = Ok a /\
    ((im_size white_dot).1 <= 4 ->
       0 <= (_offset a).1 /\ (_offset a).1 + (im_size white_dot).1 <= 4 /\
       (_offset a).1 <= 4 - ((_offset a).1 + (im_size white_dot).1)
                     <= (_offset a).1 + 1) /\
    ((im_size white_dot).2 <= 1 ->
       0 <= (_offset a).2 /\ (_offset a).2 + (im_size white_dot).2 <= 1 /\
       (_offset a).2 <= 1 - ((_offset a).2 + (im_size white_dot).2)
                     <= (_offset a).2 + 1) /\
    (4 <= (im_size white_dot).1 -> (_offset a).1 = 0) /\
    (1 <= (im_size white_dot).2 -> (_offset a).2 = 0).
Proof.
  eexists. split; [vm_compute; reflexivity|].
  eapply (gif_centred_within_layout color_scale_floor (strip 4 identity_gamma 255)
            white_dot [clear_dot] (10, 20, 30) 128).
  vm_compute; reflexivity.
Defined.

Lemma gif_construction_succeeds_witness :
  layout_ok (serpentine identity_gamma 255) = true /\
  Forall (fun i => image_ok i = true) [four_dots; two_dots; no_dots] /\
  color_ok (10, 20, 30) = true /\
  scale_ok color_scale_floor (effective_brightness (serpentine identity_gamma 255) 128) /\
  exists a,
    __init__ color_scale_floor (serpentine identity_gamma 255)
             (GifFile four_dots [two_dots; no_dots]) (-1, 1) (10, 20, 30) 128 = Ok a /\
    length (_images a) = 3%nat.
Proof.
  split; [reflexivity|].
  split; [repeat constructor|]. split; [reflexivity|].
  split; [exact (color_scale_floor_ok 128 ltac:(lia))|].
  apply (gif_construction_succeeds color_scale_floor (serpentine identity_gamma 255)
           four_dots [two_dots; no_dots] (-1, 1) (10, 20, 30) 128);
    [reflexivity | repeat constructor | reflexivity
    | exact (color_scale_floor_ok 128 ltac:(lia))].
Defined.

Lemma folder_construction_cases_witness :
  layout_ok (strip 3 identity_gamma 255) = true /\
  Forall (fun f => image_ok (bmp_image f) = true)
         [{| bmp_path := "001.bmp"; bmp_image := white_dot |};
          {| bmp_path := "002.bmp"; bmp_image := two_dots |}] /\
  color_ok (10, 20, 30) = true /\
  scale_ok color_scale_floor (effective_brightness (strip 3 identity_gamma 255) 128) /\
  match __init__ color_scale_floor (strip 3 identity_gamma 255)
          (BmpFolder [{| bmp_path := "001.bmp"; bmp_image := white_dot |};
                      {| bmp_path := "002.bmp"; bmp_image := two_dots |}])
          (1, 0) (10, 20, 30) 128 with
  | Ok a =>
      [{| bmp_path := "001.bmp"; bmp_image := white_dot |};
       {| bmp_path := "002.bmp"; bmp_image := two_dots |}] <> [] /\
      (1, 0) <> (0, 0) /\ _offset a = (1, 0) /\
      length (_images a) = length
        [{| bmp_path := "001.bmp"; bmp_image := white_dot |};
         {| bmp_path := "002.bmp"; bmp_image := two_dots |}]
  | Raise e =>
      ([{| bmp_path := "001.bmp"; bmp_image := white_dot |};
        {| bmp_path := "002.bmp"; bmp_image := two_dots |}] = [] /\ e = ValueError) \/
      ([{| bmp_path := "001.bmp"; bmp_image := white_dot |};
        {| bmp_path := "002.bmp"; bmp_image := two_dots |}] <> [] /\
       (1, 0) = (0, 0) /\ e = AttributeError)
  end.
Proof.
  split; [reflexivity|]. split; [repeat constructor|]. split; [reflexivity|].
  split; [exact (color_scale_floor_ok 128 ltac:(lia))|].
  apply (folder_construction_cases color_scale_floor (strip 3 identity_gamma 255)
           [{| bmp_path := "001.bmp"; bmp_image := white_dot |};
            {| bmp_path := "002.bmp"; bmp_image := two_dots |}]
           (1, 0) (10, 20, 30) 128);
    [reflexivity | repeat constructor | reflexivity
    | exact (color_scale_floor_ok 128 ltac:(lia))].
Defined.

Lemma clear_dot_is_last (x' y' : Z) :
  covered (strip 2 identity_gamma 255) clear_dot (1, 0) x' y' ->
  cell (strip 2 identity_gamma 255) x' y' = Ok 1 ->
  x' < 1 \/ (x' = 1 /\ y' <= 0).
Proof. intros Hc _. unfold covered, extent in Hc. simpl in Hc. lia. Qed.

Lemma transparent_sample_shows_fill_at_full_brightness_witness :
  layout_ok (strip 2 identity_gamma 255) = true /\
  image_ok clear_dot = true /\ color_ok (10, 20, 30) = true /\
  _bright (compositor (strip 2 identity_gamma 255) 255 (10, 20, 30)) = 255 /\
  (10, 20, 30) <> (0, 0, 0) /\
  0 <= 1 < 2 /\ 1 <= 1 < 1 + 1 /\ 0 <= 0 < 1 /\ 0 <= 0 < 0 + 1 /\
  cell (strip 2 identity_gamma 255) 1 0 = Ok 1 /\
  getpixel clear_dot (1 - 1, 0 - 0) = Ok (9, 9, 9, 0) /\
  exists buf v,
    _getBufferFromImage color_scale_floor
      (compositor (strip 2 identity_gamma 255) 255 (10, 20, 30)) clear_dot (1, 0)
    = Ok (im_info_duration clear_dot, buf) /\
    fill (compositor (strip 2 identity_gamma 255) 255 (10, 20, 30)) = Ok v /\
    pixel_at buf 1 = Some v.
Proof.
  split; [reflexivity|]. split; [reflexivity|]. split; [reflexivity|].
  split; [reflexivity|]. split; [discriminate|].
  split; [lia|]. split; [lia|]. split; [lia|]. split; [lia|].
  split; [reflexivity|]. split; [reflexivity|].
  apply (transparent_sample_shows_fill_at_full_brightness color_scale_floor
           (compositor (strip 2 identity_gamma 255) 255 (10, 20, 30))
           clear_dot (1, 0) 1 0 1 9 9 9);
    [reflexivity | reflexivity | reflexivity | reflexivity | discriminate
    | simpl; lia | simpl; lia | simpl; lia | simpl; lia | reflexivity
    | exact clear_dot_is_last | reflexivity].
Defined.

Lemma translucent_sample_is_darkened_witness :
  _bright (compositor (strip 1 identity_gamma 255) 255 (10, 20, 30)) = 255 /\
  0 <= 200 <= 255 /\ 0 <= 100 <= 255 /\ 0 <= 0 <= 255 /\
  0 < 100 <= 200 /\ 200 <= 255 /\
  exists r1 g1 b1 r2 g2 b2,
    pixel_color color_scale_floor
      (compositor (strip 1 identity_gamma 255) 255 (10, 20, 30)) (200, 100, 0, 100)
    = (r1, g1, b1) /\
    pixel_color color_scale_floor
      (compositor (strip 1 identity_gamma 255) 255 (10, 20, 30)) (200, 100, 0, 200)
    = (r2, g2, b2) /\
    (0 <= r1 <= Z.max 0 (200 - 1) /\ 0 <= g1 <= Z.max 0 (100 - 1) /\
     0 <= b1 <= Z.max 0 (0 - 1)) /\
    (r1 <= r2 /\ g1 <= g2 /\ b1 <= b2).
Proof.
  split; [reflexivity|]. split; [lia|]. split; [lia|]. split; [lia|].
  split; [lia|]. split; [lia|].
  apply (translucent_sample_is_darkened color_scale_floor
           (compositor (strip 1 identity_gamma 255) 255 (10, 20, 30)) 200 100 0 100 200);
    [reflexivity | lia | lia | lia | lia | lia].
Defined.

Lemma folder_clips_keep_master_brightness_witness :
  exists f,
    ImageAnimFolder_init color_scale_floor (strip 3 identity_gamma 100) (0, 0, 0)
      [(white_dot, [clear_dot]); (two_dots, [])] 2 = Ok f /\
    queued f = (fun anim => (anim, true, 2)) <$> gifs f /\
    Forall2 (fun g anim =>
               _bright anim = masterBrightness (strip 3 identity_gamma 100) /\
               _bgcolor anim
                 = color_scale_floor (0, 0, 0) (masterBrightness (strip 3 identity_gamma 100)) /\
               _offset anim = gif_offset (strip 3 identity_gamma 100) g.1 /\
               length (_images anim) = S (length g.2) /\
               _curImage anim = 0)
            [(white_dot, [clear_dot]); (two_dots, [])] (gifs f).
Proof.
  eexists. split; [vm_compute; reflexivity|].
  eapply (folder_clips_keep_master_brightness color_scale_floor
            (strip 3 identity_gamma 100) (0, 0, 0)
            [(white_dot, [clear_dot]); (two_dots, [])] 2).
  vm_compute; reflexivity.
Defined.
